(** * Tome of Games

    A shallow embedding of the catalog store, the query engine and the
    metadata client of [src/App.tsx], with the properties of its
    specification stated over the embedded functions.

    Conventions.  JavaScript strings are sequences of code units; they are
    embedded as [string], one [ascii] per code unit.  The string functions
    recurse over the sequence and do not depend on the width of a unit;
    white space is given for every unit a [string] can hold, the
    reference case mapping for the letters A to Z.  A call that can throw returns a [Completion].  React state is the record [AppState]; an event
    handler is a function from state to state.  What the JavaScript engine
    supplies and the source only calls (Unicode case mapping, locale
    collation, the sorting algorithm behind [Array.prototype.sort],
    [JSON.parse], [fetch]) is a section variable, constrained by the
    guarantees of the language standard that the proofs need. *)

From Stdlib Require Import List String Ascii ZArith Bool Lia Permutation Sorted.
From Stdlib Require Import DecimalString DecimalZ.
Import ListNotations.
Local Open Scope string_scope.
Local Open Scope Z_scope.

(* ================================================================= *)
(** ** JavaScript primitives used by the source *)

Module Js.

(** What a [throw] carries.  [Error] is an object built by the program
    itself with [new Error(message)]; [EngineError] is an exception raised
    by the runtime ([TypeError], [SyntaxError], [DOMException] ...). *)
Inductive Exception : Type :=
| Error (message : string)
| EngineError (name message : string).

Definition message_of (e : Exception) : string :=
  match e with
  | Error m => m
  | EngineError _ m => m
  end.

(** The completion of a call, or the settlement of an awaited promise. *)
Inductive Completion (A : Type) : Type :=
| Normal (a : A)
| Throw (e : Exception).
Arguments Normal {A} a.
Arguments Throw {A} e.

Definition bind {A B} (c : Completion A) (k : A -> Completion B) : Completion B :=
  match c with
  | Normal a => k a
  | Throw e => Throw e
  end.

(** [try { body } catch (e) { handler(e) }] *)
Definition try_catch {A} (body : Completion A) (handler : Exception -> Completion A)
  : Completion A :=
  match body with
  | Normal a => Normal a
  | Throw e => handler e
  end.

(** What an engine primitive yields: a value, or the name and message of
    the exception it raises. *)
Definition lift {A} (r : A + string * string) : Completion A :=
  match r with
  | inl a => Normal a
  | inr (n, m) => Throw (EngineError n m)
  end.

(** [s.startsWith(p)] *)
Fixpoint startsWith (s p : string) {struct p} : bool :=
  match p with
  | EmptyString => true
  | String c p' =>
      match s with
      | EmptyString => false
      | String d s' => Ascii.eqb d c && startsWith s' p'
      end
  end.

(** [s.includes(needle)]: [needle] occurs in [s] at some position. *)
Fixpoint includes (s needle : string) : bool :=
  startsWith s needle ||
  match s with
  | EmptyString => false
  | String _ s' => includes s' needle
  end.

(** The relational [<] on strings: code units compared left to right. *)
Fixpoint str_ltb (a b : string) : bool :=
  match a, b with
  | _, EmptyString => false
  | EmptyString, String _ _ => true
  | String c a', String d b' =>
      if Ascii.eqb c d then str_ltb a' b'
      else (nat_of_ascii c <? nat_of_ascii d)%nat
  end.

Definition str_gtb (a b : string) : bool := str_ltb b a.

(** White space in the sense of [String.prototype.trim], among the code
    units a [string] holds: tab, line feed, vertical tab, form feed,
    carriage return, space and no-break space (unit 160). *)
Definition isWhiteSpace (c : ascii) : bool :=
  let n := nat_of_ascii c in
  ((9 <=? n)%nat && (n <=? 13)%nat) || (n =? 32)%nat || (n =? 160)%nat.

(** The string of one no-break space. *)
Definition nbsp : string := String (ascii_of_nat 160) EmptyString.

Fixpoint trimStart (s : string) : string :=
  match s with
  | EmptyString => EmptyString
  | String c s' => if isWhiteSpace c then trimStart s' else s
  end.

Fixpoint trimEnd (s : string) : string :=
  match s with
  | EmptyString => EmptyString
  | String c s' =>
      match trimEnd s' with
      | EmptyString => if isWhiteSpace c then EmptyString else String c EmptyString
      | t => String c t
      end
  end.

(** [s.trim()] *)
Definition trim (s : string) : string := trimEnd (trimStart s).

(** A string is truthy when it is not empty. *)
Definition truthy (s : string) : bool :=
  match s with
  | EmptyString => false
  | String _ _ => true
  end.

(** [n.toString()] for an integer [n]: decimal digits, ["-"] first when
    negative. *)
Definition toString (n : Z) : string := NilZero.string_of_int (Z.to_int n).

(** Every code unit of the string is white space. *)
Fixpoint blank (s : string) : bool :=
  match s with
  | EmptyString => true
  | String c s' => isWhiteSpace c && blank s'
  end.

End Js.

(* ================================================================= *)
(** ** Data model *)

(** [Game['status']] *)
Inductive Status : Type := want_to_play | playing | completed | dropped.

(** The string of each status, as the source spells it. *)
Definition status_code (s : Status) : string :=
  match s with
  | want_to_play => "want-to-play"
  | playing => "playing"
  | completed => "completed"
  | dropped => "dropped"
  end.

Definition Status_eqb (a b : Status) : bool :=
  match a, b with
  | want_to_play, want_to_play | playing, playing
  | completed, completed | dropped, dropped => true
  | _, _ => false
  end.

(** [interface Game]; a field marked [?] is an [option]. *)
Record Game : Type := mkGame {
  id : string;
  title : string;
  platforms : list string;
  genres : list string;
  coverUrl : option string;
  releaseDate : option string;
  description : option string;
  status : Status;
  rating : option Z;
  notes : option string;
  dateAdded : string;
  dateCompleted : option string;
  rawgId : option Z;
  metacriticScore : option Z
}.

(** [Partial<Game>]: for each field, [None] when the object literal does
    not carry the key.  For a field that is optional in [Game] the key can
    be present with the value [undefined], which is [Some None]. *)
Module Partial.
Record t : Type := mk {
  id : option string;
  title : option string;
  platforms : option (list string);
  genres : option (list string);
  coverUrl : option (option string);
  releaseDate : option (option string);
  description : option (option string);
  status : option Status;
  rating : option (option Z);
  notes : option (option string);
  dateAdded : option string;
  dateCompleted : option (option string);
  rawgId : option (option Z);
  metacriticScore : option (option Z)
}.

(** [{}] *)
Definition empty : t :=
  mk None None None None None None None None None None None None None None.

(** [updates.dateCompleted = v] *)
Definition set_dateCompleted (v : option string) (updates : t) : t :=
  mk (id updates) (title updates) (platforms updates) (genres updates)
     (coverUrl updates) (releaseDate updates) (description updates)
     (status updates) (rating updates) (notes updates) (dateAdded updates)
     (Some v) (rawgId updates) (metacriticScore updates).
End Partial.

(** [Omit<Game, 'id' | 'dateAdded'>] *)
Module Draft.
Record t : Type := mk {
  title : string;
  platforms : list string;
  genres : list string;
  coverUrl : option string;
  releaseDate : option string;
  description : option string;
  status : Status;
  rating : option Z;
  notes : option string;
  dateCompleted : option string;
  rawgId : option Z;
  metacriticScore : option Z
}.
End Draft.

Definition overwrite {A} (old : A) (upd : option A) : A :=
  match upd with
  | Some v => v
  | None => old
  end.

(** [{ ...game, ...updates }] *)
Definition merge (game : Game) (updates : Partial.t) : Game :=
  {| id := overwrite (id game) (Partial.id updates);
     title := overwrite (title game) (Partial.title updates);
     platforms := overwrite (platforms game) (Partial.platforms updates);
     genres := overwrite (genres game) (Partial.genres updates);
     coverUrl := overwrite (coverUrl game) (Partial.coverUrl updates);
     releaseDate := overwrite (releaseDate game) (Partial.releaseDate updates);
     description := overwrite (description game) (Partial.description updates);
     status := overwrite (status game) (Partial.status updates);
     rating := overwrite (rating game) (Partial.rating updates);
     notes := overwrite (notes game) (Partial.notes updates);
     dateAdded := overwrite (dateAdded game) (Partial.dateAdded updates);
     dateCompleted := overwrite (dateCompleted game) (Partial.dateCompleted updates);
     rawgId := overwrite (rawgId game) (Partial.rawgId updates);
     metacriticScore := overwrite (metacriticScore game) (Partial.metacriticScore updates) |}.

(* ================================================================= *)
(** ** Catalog store: the state of [GameBacklogApp] and its handlers *)

(** The pieces of React state the handlers below read or write, and the
    collection last written under [STORAGE_KEY]. *)
Record AppState : Type := mkState {
  games : list Game;
  selectedGame : option Game;
  showAddForm : bool;
  saved : list Game
}.

(** [setGames(f)], followed by the effect registered on [[games]], which
    calls [saveGames(games)]. *)
Definition setGames (f : list Game -> list Game) (st : AppState) : AppState :=
  let next := f (games st) in
  {| games := next;
     selectedGame := selectedGame st;
     showAddForm := showAddForm st;
     saved := next |}.

Definition setSelectedGame (g : option Game) (st : AppState) : AppState :=
  {| games := games st;
     selectedGame := g;
     showAddForm := showAddForm st;
     saved := saved st |}.

Definition setShowAddForm (b : bool) (st : AppState) : AppState :=
  {| games := games st;
     selectedGame := selectedGame st;
     showAddForm := b;
     saved := saved st |}.

(** [addGame].  [now] is the reading of [Date.now()], [today] the value of
    [new Date().toISOString().split('T')[0]]. *)
Definition newGame (now : Z) (today : string) (gameData : Draft.t) : Game :=
  {| id := Js.toString now;
     title := Draft.title gameData;
     platforms := Draft.platforms gameData;
     genres := Draft.genres gameData;
     coverUrl := Draft.coverUrl gameData;
     releaseDate := Draft.releaseDate gameData;
     description := Draft.description gameData;
     status := Draft.status gameData;
     rating := Draft.rating gameData;
     notes := Draft.notes gameData;
     dateAdded := today;
     dateCompleted := Draft.dateCompleted gameData;
     rawgId := Draft.rawgId gameData;
     metacriticScore := Draft.metacriticScore gameData |}.

Definition addGame (now : Z) (today : string) (gameData : Draft.t)
  (st : AppState) : AppState :=
  setShowAddForm false
    (setGames (fun prev => (prev ++ [newGame now today gameData])%list) st).

(** [updateGame] *)
Definition updateGame (gameId : string) (updates : Partial.t)
  (st : AppState) : AppState :=
  setGames
    (fun prev =>
       map (fun game => if String.eqb (id game) gameId
                        then merge game updates else game) prev)
    st.

(** [deleteGame] *)
Definition deleteGame (gameId : string) (st : AppState) : AppState :=
  setSelectedGame None
    (setGames (fun prev => filter (fun game => negb (String.eqb (id game) gameId)) prev)
       st).

(** The status menu of a [GameCard]:
    [onStatusChange={(status) => updateGame(game.id, { status })}]. *)
Definition status_only (s : Status) : Partial.t :=
  Partial.mk None None None None None None None (Some s)
             None None None None None None.

Definition card_onStatusChange (game : Game) (s : Status) (st : AppState) : AppState :=
  updateGame (id game) (status_only s) st.

(** [handleStatusChange] of [GameDetailModal].  [game] is the modal's prop,
    the value of [selectedGame]; [onUpdate] is
    [(updates) => updateGame(selectedGame.id, updates)]. *)
Definition statusChange_updates (today : string) (game : Game) (s : Status)
  : Partial.t :=
  let updates := status_only s in
  if Status_eqb s completed && negb (Status_eqb (status game) completed) then
    Partial.set_dateCompleted (Some today) updates
  else if negb (Status_eqb s completed) then
    Partial.set_dateCompleted None updates
  else updates.

Definition handleStatusChange (today : string) (game : Game) (s : Status)
  (st : AppState) : AppState :=
  updateGame (id game) (statusChange_updates today game s) st.

(** A sequence of add operations, each with its two clock readings and its
    draft, applied in order. *)
Definition AddOp : Type := (Z * string * Draft.t)%type.

Definition op_now (op : AddOp) : Z := fst (fst op).

Fixpoint addGames (ops : list AddOp) (st : AppState) : AppState :=
  match ops with
  | [] => st
  | (now, today, gameData) :: rest => addGames rest (addGame now today gameData st)
  end.

(** [handleSubmit] of [AddGameModal]; [onAdd] is [addGame]. *)
Definition handleSubmit (now : Z) (today : string) (formData : Draft.t)
  (st : AppState) : AppState :=
  if Js.truthy (Js.trim (Draft.title formData))
  then addGame now today formData st
  else st.

(* ================================================================= *)
(** ** Persistence adapter *)

Section Persistence.

(** [JSON.parse] at the type the source gives its result, [Game[]]: the
    parsed collection, or the [SyntaxError] it raises. *)
Variable JSON_parse : string -> list Game + string * string.

(** [loadGames].  [getItem] is the outcome of
    [localStorage.getItem(STORAGE_KEY)]: the stored string, [null] when the
    key is absent, or the exception of a browser that denies storage. *)
Definition loadGames (getItem : option string + string * string)
  : Js.Completion (list Game) :=
  Js.try_catch
    (Js.bind (Js.lift getItem) (fun data =>
       match data with
       | Some text => if Js.truthy text then Js.lift (JSON_parse text)
                      else Js.Normal []
       | None => Js.Normal []
       end))
    (fun _ => Js.Normal []).

End Persistence.

(* ================================================================= *)
(** ** Query engine *)

(** [xs.includes(x)] on an array of strings *)
Definition Array_includes (xs : list string) (x : string) : bool :=
  existsb (String.eqb x) xs.

(** [xs[i]]: [undefined] outside the array. *)
Definition Array_get {A} (xs : list A) (i : Z) : option A :=
  if i <? 0 then None else nth_error xs (Z.to_nat i).

Section QueryEngine.

(** [String.prototype.toLowerCase], [String.prototype.localeCompare] and
    the algorithm of [Array.prototype.sort] belong to the engine. *)
Variable toLowerCase : string -> string.
Variable localeCompare : string -> string -> Z.
Variable Array_sort : (Game -> Game -> Z) -> list Game -> list Game.

Definition matchesSearch (searchTerm : string) (game : Game) : bool :=
  Js.includes (toLowerCase (title game)) (toLowerCase searchTerm) ||
  existsb (fun g => Js.includes (toLowerCase g) (toLowerCase searchTerm))
          (genres game).

Definition matchesPlatforms (selectedPlatforms : list string) (game : Game) : bool :=
  (List.length selectedPlatforms =? 0)%nat ||
  existsb (fun p => Array_includes (platforms game) p) selectedPlatforms.

Definition matchesGenres (selectedGenres : list string) (game : Game) : bool :=
  (List.length selectedGenres =? 0)%nat ||
  existsb (fun g => Array_includes (genres game) g) selectedGenres.

Definition matchesStatus (selectedStatus : list string) (game : Game) : bool :=
  (List.length selectedStatus =? 0)%nat ||
  Array_includes selectedStatus (status_code (status game)).

(** The callback of [games.filter]. *)
Definition passes (searchTerm : string)
  (selectedPlatforms selectedGenres selectedStatus : list string)
  (game : Game) : bool :=
  matchesSearch searchTerm game && matchesPlatforms selectedPlatforms game &&
  matchesGenres selectedGenres game && matchesStatus selectedStatus game.

(** [result] before the [switch]: the filtering stage. *)
Definition filtered (games : list Game) (searchTerm : string)
  (selectedPlatforms selectedGenres selectedStatus : list string) : list Game :=
  filter (passes searchTerm selectedPlatforms selectedGenres selectedStatus) games.

(** [game.rating || 0] *)
Definition rating_or_0 (game : Game) : Z :=
  match rating game with
  | Some r => r
  | None => 0
  end.

(** The comparison function of each [case] of the [switch]; [None] for
    the [default] case, which does not sort. *)
Definition compareFn (sortOption : string) : option (Game -> Game -> Z) :=
  if String.eqb sortOption "title-az" then
    Some (fun a b => localeCompare (title a) (title b))
  else if String.eqb sortOption "title-za" then
    Some (fun a b => localeCompare (title b) (title a))
  else if String.eqb sortOption "date-oldest" then
    Some (fun a b => if Js.str_gtb (dateAdded a) (dateAdded b) then 1 else -1)
  else if String.eqb sortOption "date-newest" then
    Some (fun a b => if Js.str_ltb (dateAdded a) (dateAdded b) then 1 else -1)
  else if String.eqb sortOption "status" then
    Some (fun a b => localeCompare (status_code (status a)) (status_code (status b)))
  else if String.eqb sortOption "rating-high" then
    Some (fun a b => rating_or_0 b - rating_or_0 a)
  else if String.eqb sortOption "rating-low" then
    Some (fun a b => rating_or_0 a - rating_or_0 b)
  else None.

(** [filteredGames]: the view. *)
Definition filteredGames (games : list Game) (searchTerm : string)
  (selectedPlatforms selectedGenres selectedStatus : list string)
  (sortOption : string) : list Game :=
  let result :=
    filtered games searchTerm selectedPlatforms selectedGenres selectedStatus in
  match compareFn sortOption with
  | Some cmp => Array_sort cmp result
  | None => result
  end.

(** The text of the specification for membership in the view, clause by
    clause. *)
Definition substring_of (needle hay : string) : Prop :=
  exists pre post, hay = pre ++ needle ++ post.

Definition ci_match (searchTerm text : string) : Prop :=
  substring_of (toLowerCase searchTerm) (toLowerCase text).

Definition spec_text (searchTerm : string) (game : Game) : Prop :=
  searchTerm = "" \/ ci_match searchTerm (title game) \/
  exists g, In g (genres game) /\ ci_match searchTerm g.

Definition spec_platforms (platformFilter : list string) (game : Game) : Prop :=
  platformFilter = [] \/ exists p, In p (platforms game) /\ In p platformFilter.

Definition spec_genres (genreFilter : list string) (game : Game) : Prop :=
  genreFilter = [] \/ exists g, In g (genres game) /\ In g genreFilter.

Definition spec_status (statusFilter : list string) (game : Game) : Prop :=
  statusFilter = [] \/ In (status_code (status game)) statusFilter.

Definition spec_in_view (searchText : string)
  (platformFilter genreFilter statusFilter : list string) (game : Game) : Prop :=
  spec_text searchText game /\ spec_platforms platformFilter game /\
  spec_genres genreFilter game /\ spec_status statusFilter game.

End QueryEngine.

(** The games a random pick may return. *)
Definition eligible (game : Game) : bool :=
  Status_eqb (status game) want_to_play || Status_eqb (status game) playing.

(** A double-precision number at least 0 and less than 1, as
    [Math.random()] returns: [num / 2 ^ shift] with a significand [num]
    below [2 ^ 53] and a [shift] of 1074 at most. *)
Module Double.

Record t : Type := mk { num : Z; shift : Z }.

Definition unit_interval (d : t) : Prop :=
  0 <= num d < 2 ^ 53 /\ 0 <= shift d <= 1074 /\ num d < 2 ^ shift d.

(** A natural number rounded to 53 significant bits, to the nearest and
    to the even one of two equally near. *)
Definition round53 (m : Z) : Z :=
  if m <? 2 ^ 53 then m
  else
    let s := Z.log2 m - 52 in
    let q := m / 2 ^ s in
    let r := m mod 2 ^ s in
    let half := 2 ^ (s - 1) in
    if (half <? r) || ((r =? half) && Z.odd q)
    then (q + 1) * 2 ^ s
    else q * 2 ^ s.

(** [Math.floor(d * n)] for an integer [n] below [2 ^ 53]: the product
    [num * n / 2 ^ shift] is rounded to a double, then floored. *)
Definition floor_times (d : t) (n : Z) : Z := round53 (num d * n) / 2 ^ shift d.

(** The floor of the product before it is rounded. *)
Definition floor_exact (d : t) (n : Z) : Z := num d * n / 2 ^ shift d.

End Double.

(** [Math.floor(Math.random() * n)]; [random] is the draw. *)
Definition random_index (random : Double.t) (n : nat) : Z :=
  Double.floor_times random (Z.of_nat n).

(** [pickRandomGame] *)
Definition pickRandomGame (random : Double.t) (view : list Game) (st : AppState)
  : AppState :=
  let eligibleGames := filter eligible view in
  if (0 <? List.length eligibleGames)%nat
  then setSelectedGame
         (Array_get eligibleGames (random_index random (List.length eligibleGames))) st
  else st.

(** Order-preserving selection: [sub] is obtained from [l] by dropping
    entries. *)
Inductive Subseq {A : Type} : list A -> list A -> Prop :=
| Subseq_nil : Subseq [] []
| Subseq_keep x sub l : Subseq sub l -> Subseq (x :: sub) (x :: l)
| Subseq_drop x sub l : Subseq sub l -> Subseq sub (x :: l).

(** Sorting contract of the language standard.  A comparison function is
    consistent on a list when it orders its entries as a total preorder;
    the keys of [a] and [b] are equal when it returns zero. *)
Definition consistent {A} (cmp : A -> A -> Z) (l : list A) : Prop :=
  (forall a, In a l -> cmp a a = 0) /\
  (forall a b, In a l -> In b l -> (cmp a b < 0 <-> cmp b a > 0)) /\
  (forall a b c, In a l -> In b l -> In c l ->
      cmp a b <= 0 -> cmp b c <= 0 -> cmp a c <= 0) /\
  (forall a b c, In a l -> In b l -> In c l ->
      cmp a b = 0 -> cmp b c < 0 -> cmp a c < 0) /\
  (forall a b c, In a l -> In b l -> In c l ->
      cmp a b < 0 -> cmp b c = 0 -> cmp a c < 0).

(** The entries of [l] whose key equals that of [x], in the order of [l]. *)
Definition same_key {A} (cmp : A -> A -> Z) (x : A) (l : list A) : list A :=
  filter (fun y => cmp x y =? 0) l.

(** [out] keeps entries of equal key in the order they have in [l]. *)
Definition stable_wrt {A} (cmp : A -> A -> Z) (l out : list A) : Prop :=
  forall x, In x l -> same_key cmp x out = same_key cmp x l.

(* ================================================================= *)
(** ** Metadata client *)

Module Rawg.

Record Platform : Type := mkPlatform { platform_id : Z; platform_name : string }.
Record Genre : Type := mkGenre { genre_id : Z; genre_name : string }.

(** [interface RAWGGame] *)
Record RAWGGame : Type := mkRAWGGame {
  id : Z;
  name : string;
  background_image : option string;
  released : option string;
  description_raw : option string;
  platforms : option (list Platform);
  genres : option (list Genre);
  metacritic : option Z
}.

(** The decoded upstream body, with the two fields [searchGames] reads:
    [detail], a string when the service sends it, and [results]. *)
Record Payload : Type := mkPayload {
  detail : option string;
  results : option (list RAWGGame)
}.

(** The envelope of the relay: [proxyData.contents]. *)
Record ProxyData : Type := mkProxyData { contents : string }.

(** What [fetch] resolves to: [response.ok], [response.status], and the
    settlement of [response.json()]. *)
Record Response : Type := mkResponse {
  ok : bool;
  status : Z;
  json : ProxyData + string * string
}.

Definition RAWG_API_BASE : string := "https://api.rawg.io/api".
Definition CORS_PROXY : string := "https://api.allorigins.win/get?url=".

(** The two errors [searchGames] builds itself. *)
Definition AuthError : Js.Exception :=
  Js.Error "Invalid API key. Please check your RAWG.io API key.".

Definition NetworkError (status : Z) : Js.Exception :=
  Js.Error ("Search failed: " ++ Js.toString status).

(** [data.detail && data.detail.includes('Invalid API key')] *)
Definition reports_invalid_key (data : Payload) : bool :=
  match detail data with
  | Some d => Js.truthy d && Js.includes d "Invalid API key"
  | None => false
  end.

(** The words of the specification: the decoded response carries a
    [detail] field in which the text [Invalid API key] occurs. *)
Definition carries_invalid_key_detail (data : Payload) : Prop :=
  exists d, detail data = Some d /\
    exists pre post, d = pre ++ "Invalid API key" ++ post.

Section Client.

Variable encodeURIComponent : string -> string.
(** [fetch(url)]: the response, or the rejection of the promise. *)
Variable fetch : string -> Response + string * string.
(** [JSON.parse] on the relayed body. *)
Variable JSON_parse : string -> Payload + string * string.

Definition proxyUrl (query apiKey : string) : string :=
  let apiUrl := RAWG_API_BASE ++ "/games?search=" ++ encodeURIComponent query
                ++ "&page_size=10&key=" ++ apiKey in
  CORS_PROXY ++ encodeURIComponent apiUrl.

(** [searchGames] *)
Definition searchGames (query apiKey : string) : Js.Completion (list RAWGGame) :=
  if negb (Js.truthy (Js.trim query)) || negb (Js.truthy (Js.trim apiKey))
  then Js.Normal []
  else
    Js.try_catch
      (Js.bind (Js.lift (fetch (proxyUrl query apiKey))) (fun response =>
         if negb (ok response)
         then Js.Throw (NetworkError (status response))
         else
           Js.bind (Js.lift (json response)) (fun proxyData =>
           Js.bind (Js.lift (JSON_parse (contents proxyData))) (fun data =>
             if reports_invalid_key data
             then Js.Throw AuthError
             else Js.Normal (match results data with
                             | Some r => r
                             | None => []
                             end)))))
      (fun error => Js.Throw error).

End Client.

(** The test [handleSearch] applies to what it catches:
    [error.message.includes('API key')]. *)
Definition mentions_api_key (error : Js.Exception) : bool :=
  Js.includes (Js.message_of error) "API key".

(** The text [handleSearch] shows for a caught error. *)
Definition searchError_for (error : Js.Exception) : string :=
  if mentions_api_key error
  then "Invalid API key. Please check your RAWG.io API key in settings."
  else "Search failed. Please try again.".

End Rawg.

(* ================================================================= *)
(** ** A reference engine

    One concrete choice for each engine function, used to run the
    definitions on examples: case mapping of the letters A to Z, collation
    by code units, and an insertion sort that moves the entry being placed
    to the left of a placed entry [y] when [comparefn(entry, y)] is
    negative. *)

Module Ref.

Definition lower_ascii (c : ascii) : ascii :=
  let n := nat_of_ascii c in
  if ((65 <=? n)%nat && (n <=? 90)%nat)%bool then ascii_of_nat (n + 32) else c.

Fixpoint toLowerCase (s : string) : string :=
  match s with
  | EmptyString => EmptyString
  | String c s' => String (lower_ascii c) (toLowerCase s')
  end.

Definition localeCompare (a b : string) : Z :=
  if Js.str_ltb a b then -1 else if Js.str_ltb b a then 1 else 0.

(** [placed] holds the entries already in place, the last one first. *)
Fixpoint place {A} (cmp : A -> A -> Z) (x : A) (placed : list A) : list A :=
  match placed with
  | [] => [x]
  | y :: rest => if cmp x y <? 0 then y :: place cmp x rest else x :: placed
  end.

Definition Array_sort {A} (cmp : A -> A -> Z) (l : list A) : list A :=
  rev (fold_left (fun placed x => place cmp x placed) l []).

(** A parser that accepts the text of the empty array only. *)
Definition JSON_parse (text : string) : list Game + string * string :=
  if String.eqb text "[]" then inl []
  else inr ("SyntaxError", "Unexpected token").

(** A relay that answers every request with status [status] and the body
    [body], and a decoder of three bodies. *)
Definition encodeURIComponent (s : string) : string := s.

Definition fetch (status : Z) (body : string) (url : string)
  : Rawg.Response + string * string :=
  inl (Rawg.mkResponse ((200 <=? status) && (status <=? 299)) status
                       (inl (Rawg.mkProxyData body))).

Definition decode (text : string) : Rawg.Payload + string * string :=
  if String.eqb text "rejected" then
    inl (Rawg.mkPayload (Some "Invalid API key provided.") None)
  else if String.eqb text "found" then
    inl (Rawg.mkPayload None
           (Some [Rawg.mkRAWGGame 3498 "Hades" None None None None None (Some 93)]))
  else if String.eqb text "empty" then
    inl (Rawg.mkPayload None None)
  else inr ("SyntaxError", "Unexpected token").

End Ref.

(* ================================================================= *)
(** ** Sample data *)

Definition sample (i t : string) (s : Status) (added : string)
  (done : option string) : Game :=
  mkGame i t [] [] None None None s None None added done None None.

Definition sample_draft (t : string) : Draft.t :=
  Draft.mk t [] [] None None None want_to_play None None None None None.

Definition initial_state (gs : list Game) : AppState := mkState gs None false gs.

Definition hades : Game :=
  sample "1704067200000" "Hades" completed "2024-01-01" (Some "2024-01-20").
Definition celeste : Game :=
  sample "1706745600000" "Celeste" playing "2024-02-01" None.
Definition tunic : Game :=
  sample "1706749200000" "Tunic" want_to_play "2024-02-01" None.


(* ================================================================= *)
(** ** Sort keys

    The key of each sort mode, as the table of the specification gives
    it: the title, the date of addition, the status, the rating with 0
    for an absent one.  A mode outside the table has no key; its view is
    the filtered list, whose whole order is then at stake. *)

Definition sort_key_eqb (sortOption : string) (a b : Game) : bool :=
  if String.eqb sortOption "title-az" || String.eqb sortOption "title-za" then
    String.eqb (title a) (title b)
  else if String.eqb sortOption "date-oldest" || String.eqb sortOption "date-newest" then
    String.eqb (dateAdded a) (dateAdded b)
  else if String.eqb sortOption "status" then
    Status_eqb (status a) (status b)
  else if String.eqb sortOption "rating-high" || String.eqb sortOption "rating-low" then
    rating_or_0 a =? rating_or_0 b
  else true.

(** Stability of a view: for every game [x], the games whose key equals
    that of a game [x] of the filtered list come in the view in the order
    they have in the filtered list. *)
Definition stable_view (sortOption : string) (result view : list Game) : Prop :=
  forall x, In x result ->
    filter (sort_key_eqb sortOption x) view
    = filter (sort_key_eqb sortOption x) result.

(** The characters of the decimal text of an integer. *)
Definition is_digit_or_minus (c : ascii) : bool :=
  let n := nat_of_ascii c in
  ((48 <=? n)%nat && (n <=? 57)%nat) || Ascii.eqb c "-".

(* ================================================================= *)
(** ** Filter controls *)

(** [toggleOption] of [FilterSection]: the new selection handed to
    [onChange]. *)
Definition toggleOption (selected : list string) (o : string) : list string :=
  if Array_includes selected o
  then filter (fun s => negb (String.eqb s o)) selected
  else (selected ++ [o])%list.

(** The entries of [STATUS_OPTIONS]. *)
Module StatusOption.
Record t : Type := mk { value : string; label : string; color : string }.
End StatusOption.

Definition STATUS_OPTIONS : list StatusOption.t :=
  [ StatusOption.mk "want-to-play" "Want to Play" "bg-blue-100 text-blue-800";
    StatusOption.mk "playing" "Currently Playing" "bg-green-100 text-green-800";
    StatusOption.mk "completed" "Completed" "bg-purple-100 text-purple-800";
    StatusOption.mk "dropped" "Dropped" "bg-gray-100 text-gray-800" ].

(** [a || b] on strings *)
Definition or_else (a b : string) : string := if Js.truthy a then a else b.

(** [STATUS_OPTIONS.find(opt => opt.value === s)?.label || s] *)
Definition label_of_value (s : string) : string :=
  match find (fun opt => String.eqb (StatusOption.value opt) s) STATUS_OPTIONS with
  | Some opt => or_else (StatusOption.label opt) s
  | None => s
  end.

(** [STATUS_OPTIONS.find(opt => opt.label === label)?.value || label] *)
Definition value_of_label (l : string) : string :=
  match find (fun opt => String.eqb (StatusOption.label opt) l) STATUS_OPTIONS with
  | Some opt => or_else (StatusOption.value opt) l
  | None => l
  end.

(** The status section of the filters: [selected] as it is displayed, and
    the selection stored when the button of label [l] is pressed. *)
Definition status_selected (selectedStatus : list string) : list string :=
  map label_of_value selectedStatus.

Definition status_click (selectedStatus : list string) (l : string) : list string :=
  map value_of_label (toggleOption (status_selected selectedStatus) l).

(** The search text, the three filters and the sort mode of
    [GameBacklogApp]. *)
Module Filters.
Record t : Type := mk {
  searchTerm : string;
  selectedPlatforms : list string;
  selectedGenres : list string;
  selectedStatus : list string;
  sortOption : string
}.
End Filters.

(** [clearFilters] *)
Definition clearFilters (f : Filters.t) : Filters.t :=
  Filters.mk "" [] [] [] (Filters.sortOption f).

(** [disabled] of the Random Game button. *)
Definition randomDisabled (view : list Game) : bool :=
  (List.length (filter eligible view) =? 0)%nat.

(* ================================================================= *)
(** ** Metadata client: details and conversion *)

(** The decoded body of a detail request: the record, and the [detail]
    field the service sends with an error. *)
Record DetailPayload : Type := mkDetailPayload {
  detail_of : option string;
  game_of : Rawg.RAWGGame
}.

(** The result of [convertRAWGToGame]: the eight keys of its object
    literal. *)
Module Converted.
Record t : Type := mk {
  title : string;
  platforms : list string;
  genres : list string;
  coverUrl : option string;
  releaseDate : option string;
  description : option string;
  rawgId : Z;
  metacriticScore : option Z
}.
End Converted.

(** [convertRAWGToGame] *)
Definition convertRAWGToGame (rawgGame : Rawg.RAWGGame) : Converted.t :=
  {| Converted.title := Rawg.name rawgGame;
     Converted.platforms :=
       match Rawg.platforms rawgGame with
       | Some ps => map Rawg.platform_name ps
       | None => []
       end;
     Converted.genres :=
       match Rawg.genres rawgGame with
       | Some gs => map Rawg.genre_name gs
       | None => []
       end;
     Converted.coverUrl := Rawg.background_image rawgGame;
     Converted.releaseDate := Rawg.released rawgGame;
     Converted.description := Rawg.description_raw rawgGame;
     Converted.rawgId := Rawg.id rawgGame;
     Converted.metacriticScore := Rawg.metacritic rawgGame |}.

(** [{ ...prev, ...gameData }] on the form data. *)
Definition merge_form (prev : Draft.t) (gameData : Converted.t) : Draft.t :=
  {| Draft.title := Converted.title gameData;
     Draft.platforms := Converted.platforms gameData;
     Draft.genres := Converted.genres gameData;
     Draft.coverUrl := Converted.coverUrl gameData;
     Draft.releaseDate := Converted.releaseDate gameData;
     Draft.description := Converted.description gameData;
     Draft.status := Draft.status prev;
     Draft.rating := Draft.rating prev;
     Draft.notes := Draft.notes prev;
     Draft.dateCompleted := Draft.dateCompleted prev;
     Draft.rawgId := Some (Converted.rawgId gameData);
     Draft.metacriticScore := Converted.metacriticScore gameData |}.

Definition DetailsError : Js.Exception := Js.Error "Failed to fetch game details".
Definition DetailsAuthError : Js.Exception := Js.Error "Invalid API key".

(** [data.detail && data.detail.includes('Invalid API key')] *)
Definition details_report_invalid_key (data : DetailPayload) : bool :=
  match detail_of data with
  | Some d => Js.truthy d && Js.includes d "Invalid API key"
  | None => false
  end.

Section Details.

Variable encodeURIComponent : string -> string.
Variable fetch : string -> Rawg.Response + string * string.
Variable JSON_parse : string -> DetailPayload + string * string.

Definition detailsUrl (gameId : Z) (apiKey : string) : string :=
  let apiUrl := Rawg.RAWG_API_BASE ++ "/games/" ++ Js.toString gameId
                ++ "?key=" ++ apiKey in
  Rawg.CORS_PROXY ++ encodeURIComponent apiUrl.

(** [getGameDetails]; [None] is [null]. *)
Definition getGameDetails (gameId : Z) (apiKey : string)
  : Js.Completion (option Rawg.RAWGGame) :=
  if negb (Js.truthy (Js.trim apiKey))
  then Js.Normal None
  else
    Js.try_catch
      (Js.bind (Js.lift (fetch (detailsUrl gameId apiKey))) (fun response =>
         if negb (Rawg.ok response)
         then Js.Throw DetailsError
         else
           Js.bind (Js.lift (Rawg.json response)) (fun proxyData =>
           Js.bind (Js.lift (JSON_parse (Rawg.contents proxyData))) (fun data =>
             if details_report_invalid_key data
             then Js.Throw DetailsAuthError
             else Js.Normal (Some (game_of data))))))
      (fun error => Js.Throw error).

End Details.

(* ================================================================= *)
(** ** The add dialog *)

Module AddGameModal.

(** The state of [AddGameModal]. *)
Record t : Type := mk {
  searchQuery : string;
  searchResults : list Rawg.RAWGGame;
  isSearching : bool;
  searchError : string;
  selectedGameData : option Rawg.RAWGGame;
  formData : Draft.t
}.

(** The form data the dialog starts with and returns to. *)
Definition empty_form : Draft.t :=
  Draft.mk "" [] [] (Some "") (Some "") (Some "") want_to_play None (Some "")
           None None None.

Definition initial : t := mk "" [] false "" None empty_form.

Definition setSearchError (e : string) (st : t) : t :=
  mk (searchQuery st) (searchResults st) (isSearching st) e
     (selectedGameData st) (formData st).

Definition setFormData (f : Draft.t -> Draft.t) (st : t) : t :=
  mk (searchQuery st) (searchResults st) (isSearching st) (searchError st)
     (selectedGameData st) (f (formData st)).

Section Handlers.

Variable encodeURIComponent : string -> string.
Variable fetch : string -> Rawg.Response + string * string.
Variable JSON_parse_results : string -> Rawg.Payload + string * string.
Variable JSON_parse_details : string -> DetailPayload + string * string.

(** [handleSearch]: the state once the search has settled. *)
Definition handleSearch (apiKey : string) (st : t) : t :=
  if negb (Js.truthy (Js.trim apiKey)) then
    setSearchError
      "API key required. Click the settings button to add your RAWG.io API key." st
  else if negb (Js.truthy (Js.trim (searchQuery st)))
          || (String.length (searchQuery st) <? 2)%nat then
    setSearchError "Please enter at least 2 characters" st
  else
    match Rawg.searchGames encodeURIComponent fetch JSON_parse_results
                           (searchQuery st) apiKey with
    | Js.Normal results =>
        mk (searchQuery st) results false
           (if (List.length results =? 0)%nat
            then "No games found. Try different search terms." else "")
           (selectedGameData st) (formData st)
    | Js.Throw error =>
        mk (searchQuery st) [] false (Rawg.searchError_for error)
           (selectedGameData st) (formData st)
    end.

(** [selectGame] *)
Definition selectGame (rawgGame : Rawg.RAWGGame) (apiKey : string) (st : t)
  : Js.Completion t :=
  let st1 := mk (searchQuery st) (searchResults st) (isSearching st)
                (searchError st) (Some rawgGame) (formData st) in
  Js.bind
    (Js.try_catch
       (Js.bind (getGameDetails encodeURIComponent fetch JSON_parse_details
                                (Rawg.id rawgGame) apiKey)
          (fun detailedGame =>
             match detailedGame with
             | Some d =>
                 Js.Normal
                   (setFormData (fun prev => merge_form prev (convertRAWGToGame d)) st1)
             | None => Js.Normal st1
             end))
       (fun _ =>
          Js.Normal
            (setFormData (fun prev => merge_form prev (convertRAWGToGame rawgGame))
                         st1)))
    (fun st2 =>
       Js.Normal (mk "" [] (isSearching st2) (searchError st2)
                     (selectedGameData st2) (formData st2))).

End Handlers.

(** [clearSelection] *)
Definition clearSelection (st : t) : t :=
  mk "" [] (isSearching st) "" None empty_form.

Inductive ArrayField : Type := field_platforms | field_genres.

(** [toggleArrayField] *)
Definition toggleArrayField (field : ArrayField) (v : string) (st : t) : t :=
  let toggle (xs : list string) :=
    if Array_includes xs v
    then filter (fun item => negb (String.eqb item v)) xs
    else (xs ++ [v])%list in
  setFormData
    (fun prev =>
       match field with
       | field_platforms =>
           Draft.mk (Draft.title prev) (toggle (Draft.platforms prev))
                    (Draft.genres prev) (Draft.coverUrl prev)
                    (Draft.releaseDate prev) (Draft.description prev)
                    (Draft.status prev) (Draft.rating prev) (Draft.notes prev)
                    (Draft.dateCompleted prev) (Draft.rawgId prev)
                    (Draft.metacriticScore prev)
       | field_genres =>
           Draft.mk (Draft.title prev) (Draft.platforms prev)
                    (toggle (Draft.genres prev)) (Draft.coverUrl prev)
                    (Draft.releaseDate prev) (Draft.description prev)
                    (Draft.status prev) (Draft.rating prev) (Draft.notes prev)
                    (Draft.dateCompleted prev) (Draft.rawgId prev)
                    (Draft.metacriticScore prev)
       end)
    st.

End AddGameModal.

(* ================================================================= *)
(** ** The API key *)

Module ApiKeyDialog.

(** The [apiKey] state of [GameBacklogApp] and the string stored under
    [rawg_api_key]. *)
Record t : Type := mk { apiKey : string; stored : option string }.

(** [localStorage.getItem('rawg_api_key') || ''], the initial [apiKey]. *)
Definition initial_apiKey (stored_key : option string) : string :=
  match stored_key with
  | Some k => or_else k ""
  | None => ""
  end.

(** The state after a load of the page: the initial key, and the effect
    on [[apiKey]], which stores a key that is not empty. *)
Definition setApiKey (k : string) (st : t) : t :=
  mk k (if Js.truthy k then Some k else stored st).

Definition mount (stored_key : option string) : t :=
  setApiKey (initial_apiKey stored_key) (mk "" stored_key).

(** [handleSave]; [onSave] is [setApiKey]. *)
Definition handleSave (inputKey : string) (st : t) : t :=
  setApiKey (Js.trim inputKey) st.

End ApiKeyDialog.

(* ================================================================= *)
(** ** The detail view: saving edits *)

Module GameDetailModal.

(** Which of the optional keys an object of type [Game] carries when the
    value is [undefined]; a key with a value is carried. *)
Record Keys : Type := mkKeys {
  has_coverUrl : bool;
  has_releaseDate : bool;
  has_description : bool;
  has_rating : bool;
  has_notes : bool;
  has_dateCompleted : bool;
  has_rawgId : bool;
  has_metacriticScore : bool
}.

Definition optional_key {A} (present : bool) (v : option A) : option (option A) :=
  match v with
  | Some x => Some (Some x)
  | None => if present then Some None else None
  end.

(** A game object read as the [updates] of [updateGame]. *)
Definition as_updates (keys : Keys) (g : Game) : Partial.t :=
  Partial.mk (Some (id g)) (Some (title g)) (Some (platforms g)) (Some (genres g))
    (optional_key (has_coverUrl keys) (coverUrl g))
    (optional_key (has_releaseDate keys) (releaseDate g))
    (optional_key (has_description keys) (description g))
    (Some (status g))
    (optional_key (has_rating keys) (rating g))
    (optional_key (has_notes keys) (notes g))
    (Some (dateAdded g))
    (optional_key (has_dateCompleted keys) (dateCompleted g))
    (optional_key (has_rawgId keys) (rawgId g))
    (optional_key (has_metacriticScore keys) (metacriticScore g)).

(** The four inputs of the edit form, each [None] when left alone:
    [setEditData(prev => ({ ...prev, title: v }))] and its like. *)
Record Edits : Type := mkEdits {
  new_title : option string;
  new_description : option string;
  new_notes : option string;
  new_rating : option (option Z)
}.

(** [editData] after the edits, from [useState(game)]. *)
Definition editData (game : Game) (e : Edits) : Game :=
  mkGame (id game) (overwrite (title game) (new_title e))
         (platforms game) (genres game) (coverUrl game) (releaseDate game)
         (match new_description e with
          | Some d => Some d
          | None => description game
          end)
         (status game)
         (overwrite (rating game) (new_rating e))
         (match new_notes e with
          | Some n => Some n
          | None => notes game
          end)
         (dateAdded game) (dateCompleted game) (rawgId game)
         (metacriticScore game).

(** [handleSave].  [opened] is the game the view was mounted with, which
    [useState(game)] keeps as the base of [editData]; [onUpdate] is
    [(updates) => updateGame(selectedGame.id, updates)], which reads the
    selection as it is now.  The view exists only while a game is
    selected. *)
Definition handleSave (keys : Keys) (opened : Game) (e : Edits) (st : AppState)
  : AppState :=
  match selectedGame st with
  | Some selected =>
      updateGame (id selected) (as_updates keys (editData opened e)) st
  | None => st
  end.

End GameDetailModal.

(** Two games that differ at most in status and completion date. *)
Definition same_but_status (g g' : Game) : Prop :=
  id g' = id g /\ title g' = title g /\ platforms g' = platforms g /\
  genres g' = genres g /\ coverUrl g' = coverUrl g /\
  releaseDate g' = releaseDate g /\ description g' = description g /\
  rating g' = rating g /\ notes g' = notes g /\ dateAdded g' = dateAdded g /\
  rawgId g' = rawgId g /\ metacriticScore g' = metacriticScore g.

(** A relay for the examples: one body for every request. *)
Definition sample_details : DetailPayload :=
  mkDetailPayload None
    (Rawg.mkRAWGGame 3498 "Hades" (Some "https://media.rawg.io/hades.jpg")
       (Some "2020-09-17") (Some "Defy the god of the dead.")
       (Some [Rawg.mkPlatform 4 "PC"; Rawg.mkPlatform 7 "Nintendo Switch"])
       (Some [Rawg.mkGenre 4 "Action"; Rawg.mkGenre 51 "Indie"]) (Some 93)).

Definition sample_summary : Rawg.RAWGGame :=
  Rawg.mkRAWGGame 3498 "Hades" None (Some "2020-09-17") None None None (Some 93).

Definition decode_details (text : string) : DetailPayload + string * string :=
  if String.eqb text "details" then inl sample_details
  else inr ("SyntaxError", "Unexpected token").

(* ================================================================= *)
(** ** Facts about the primitives *)

Lemma startsWith_spec (s p : string) :
  Js.startsWith s p = true <-> exists post, s = p ++ post.
Proof.
  revert s; induction p as [|c p IH]; intros s; simpl.
  - split; [intros _; now exists s | reflexivity].
  - destruct s as [|d s]; simpl.
    + split; [discriminate | intros [post H]; discriminate].
    + rewrite andb_true_iff, Ascii.eqb_eq, IH. split.
      * intros [-> [post ->]]. now exists post.
      * intros [post H]. injection H as -> ->. split; [reflexivity | now exists post].
Qed.

Lemma includes_spec (s needle : string) :
  Js.includes s needle = true <-> exists pre post, s = pre ++ needle ++ post.
Proof.
  induction s as [|c s IH]; simpl; rewrite orb_true_iff, startsWith_spec.
  - split.
    + intros [[post H] | H]; [|discriminate]. exists "", post. exact H.
    + intros [pre [post H]]. left. destruct pre; simpl in H.
      * now exists post.
      * discriminate.
  - rewrite IH. split.
    + intros [[post H] | [pre [post H]]].
      * exists "", post. exact H.
      * exists (String c pre), post. simpl. now rewrite H.
    + intros [pre [post H]]. destruct pre as [|d pre]; simpl in H.
      * left. now exists post.
      * right. injection H as _ H. now exists pre, post.
Qed.

Lemma includes_empty (s : string) : Js.includes s "" = true.
Proof. destruct s; reflexivity. Qed.

Lemma includes_first_char (s p : string) (c : ascii) :
  Js.includes s (String c p) = true -> In c (list_ascii_of_string s).
Proof.
  induction s as [|d s IH]; simpl.
  - discriminate.
  - rewrite orb_true_iff, andb_true_iff, Ascii.eqb_eq.
    intros [[-> _] | H]; [now left | right; now apply IH].
Qed.

Lemma trimEnd_blank (s : string) :
  Js.trimEnd s = "" <-> Js.blank s = true.
Proof.
  induction s as [|c s IH]; simpl.
  - tauto.
  - rewrite andb_true_iff, <- IH.
    destruct (Js.trimEnd s); destruct (Js.isWhiteSpace c);
      split; try discriminate; try tauto; intros [? ?]; discriminate.
Qed.

Lemma trimStart_blank (s : string) :
  Js.blank (Js.trimStart s) = Js.blank s.
Proof.
  induction s as [|c s IH]; simpl; [reflexivity|].
  destruct (Js.isWhiteSpace c) eqn:E; simpl; [exact IH | now rewrite E].
Qed.

(** [s.trim()] is the empty string exactly when [s] is empty or holds
    white space only. *)
Lemma trim_blank (s : string) : Js.trim s = "" <-> Js.blank s = true.
Proof. unfold Js.trim. now rewrite trimEnd_blank, trimStart_blank. Qed.

Lemma truthy_trim (s : string) : Js.truthy (Js.trim s) = negb (Js.blank s).
Proof.
  destruct (Js.blank s) eqn:E.
  - apply trim_blank in E. now rewrite E.
  - destruct (Js.trim s) eqn:T; [|reflexivity].
    apply trim_blank in T. congruence.
Qed.

Lemma to_int_proper (n : Z) :
  Z.to_int n <> Decimal.Pos Decimal.Nil /\ Z.to_int n <> Decimal.Neg Decimal.Nil.
Proof.
  destruct n as [|p|p]; simpl; split; try discriminate;
    intros H; injection H as H; now apply DecimalPos.Unsigned.to_uint_nonnil in H.
Qed.

Lemma toString_parses (n : Z) :
  NilZero.int_of_string (Js.toString n) = Some (Z.to_int n).
Proof.
  unfold Js.toString. destruct (to_int_proper n) as [H1 H2].
  now apply NilZero.isi.
Qed.

Example primitives_run :
  Js.toString 1717200000000 = "1717200000000" /\ Js.toString 0 = "0" /\
  Js.toString (-42) = "-42" /\
  Js.includes "Hades" "de" = true /\ Js.includes "Hades" "ed" = false /\
  Js.includes "" "" = true /\
  Js.trim "  a b  " = "a b" /\ Js.trim "   " = "" /\
  Js.trim (Js.nbsp ++ "k3y" ++ Js.nbsp) = "k3y" /\ Js.blank Js.nbsp = true /\
  Js.str_ltb "2024-01-01" "2024-02-01" = true /\
  Js.str_ltb "2024-02-01" "2024-02-01" = false.
Proof. repeat split. Qed.

(** Two integers with the same decimal text are equal. *)
Lemma toString_inj (n m : Z) : Js.toString n = Js.toString m -> n = m.
Proof.
  intros H. apply DecimalZ.to_int_inj.
  pose proof (toString_parses n) as Hn. pose proof (toString_parses m) as Hm.
  rewrite H in Hn. congruence.
Qed.

Lemma string_of_uint_chars (d : Decimal.uint) (c : ascii) :
  In c (list_ascii_of_string (NilEmpty.string_of_uint d)) ->
  is_digit_or_minus c = true.
Proof.
  induction d; simpl; try tauto;
    (intros [<- | H]; [reflexivity | now apply IHd]).
Qed.

Lemma toString_chars (n : Z) (c : ascii) :
  In c (list_ascii_of_string (Js.toString n)) -> is_digit_or_minus c = true.
Proof.
  unfold Js.toString, NilZero.string_of_int, NilZero.string_of_uint.
  destruct (Z.to_int n) as [u|u]; destruct u; simpl;
    repeat (intros [<- | H]; [reflexivity | revert H]);
    try tauto; apply string_of_uint_chars.
Qed.

Lemma list_ascii_of_string_app (a b : string) :
  list_ascii_of_string (a ++ b) = (list_ascii_of_string a ++ list_ascii_of_string b)%list.
Proof. induction a as [|c a IH]; simpl; [reflexivity | now rewrite IH]. Qed.

(* ================================================================= *)
(** ** Catalog store: update *)

Lemma updateGame_games (gameId : string) (updates : Partial.t) (st : AppState) :
  games (updateGame gameId updates st) =
  map (fun game => if String.eqb (id game) gameId then merge game updates else game)
      (games st).
Proof. reflexivity. Qed.

(** C9.  [updateGame] keeps the length of the collection; the entry at
    each position is the old entry, merged with the updates when its id is
    the target id and untouched when it is not, so entries keep their
    positions; and a call whose target id no game carries leaves the
    collection as it was. *)
Theorem updateGame_frame (gameId : string) (updates : Partial.t) (st : AppState) :
  List.length (games (updateGame gameId updates st)) = List.length (games st) /\
  (forall i g, nth_error (games st) i = Some g ->
     nth_error (games (updateGame gameId updates st)) i =
       Some (if String.eqb (id g) gameId then merge g updates else g)) /\
  (forall i g, nth_error (games st) i = Some g -> id g <> gameId ->
     nth_error (games (updateGame gameId updates st)) i = Some g) /\
  ((forall g, In g (games st) -> id g <> gameId) ->
     games (updateGame gameId updates st) = games st).
Proof.
  rewrite updateGame_games. repeat split.
  - apply length_map.
  - intros i g H. rewrite nth_error_map, H. reflexivity.
  - intros i g H Hne. rewrite nth_error_map, H. simpl.
    apply String.eqb_neq in Hne. now rewrite Hne.
  - intros Hall. induction (games st) as [|g l IH]; simpl; [reflexivity|].
    rewrite IH by (intros h Hh; apply Hall; now right).
    assert (Hne : id g <> gameId) by (apply Hall; now left).
    apply String.eqb_neq in Hne. now rewrite Hne.
Qed.

(* ================================================================= *)
(** ** Status changes *)

(** The status menu of a card writes the status and nothing else: the
    completion date of every game is what it was. *)
Lemma card_onStatusChange_dateCompleted (game : Game) (s : Status) (st : AppState) :
  map dateCompleted (games (card_onStatusChange game s st)) =
  map dateCompleted (games st).
Proof.
  unfold card_onStatusChange. rewrite updateGame_games, map_map.
  apply map_ext. intros g. now destruct (String.eqb (id g) (id game)).
Qed.

Lemma card_onStatusChange_status (game : Game) (s : Status) (st : AppState) :
  forall i g, nth_error (games st) i = Some g -> id g = id game ->
    option_map status (nth_error (games (card_onStatusChange game s st)) i) = Some s.
Proof.
  intros i g H E. unfold card_onStatusChange.
  rewrite updateGame_games, nth_error_map, H. simpl.
  apply String.eqb_eq in E. now rewrite E.
Qed.

(** The menu of the detail view applies the rule of the specification,
    reading the previous status from the game it was opened with. *)
Lemma handleStatusChange_rule (today : string) (game : Game) (s : Status)
  (st : AppState) (i : nat) (g : Game) :
  nth_error (games st) i = Some g -> id g = id game ->
  exists g', nth_error (games (handleStatusChange today game s st)) i = Some g' /\
    status g' = s /\
    dateCompleted g' =
      match s with
      | completed => if Status_eqb (status game) completed
                     then dateCompleted g else Some today
      | _ => None
      end.
Proof.
  intros H E. unfold handleStatusChange.
  rewrite updateGame_games, nth_error_map, H. simpl.
  apply String.eqb_eq in E. rewrite E. eexists. split; [reflexivity|].
  unfold statusChange_updates.
  destruct s, (status game); simpl; auto.
Qed.

(** C1, on the code.  A card's status menu moves Celeste from [playing]
    to [completed] and leaves its completion date absent; it moves Hades
    from [completed] to [dropped] and leaves its completion date in
    place.  The same two changes made from the detail view set the date
    to the current date and clear it. *)
Theorem card_status_change_skips_completion_date :
  let st := initial_state [hades; celeste] in
  map (fun g => (status g, dateCompleted g))
      (games (card_onStatusChange celeste completed st))
    = [(completed, Some "2024-01-20"); (completed, None)] /\
  map (fun g => (status g, dateCompleted g))
      (games (card_onStatusChange hades dropped st))
    = [(dropped, Some "2024-01-20"); (playing, None)] /\
  map (fun g => (status g, dateCompleted g))
      (games (handleStatusChange "2024-03-05" celeste completed st))
    = [(completed, Some "2024-01-20"); (completed, Some "2024-03-05")] /\
  map (fun g => (status g, dateCompleted g))
      (games (handleStatusChange "2024-03-05" hades dropped st))
    = [(dropped, None); (playing, None)].
Proof. repeat split. Qed.

(** The detail view reads the previous status from the game it was opened
    with, which later updates do not refresh: opened on a completed game,
    a change to [playing] followed by a change back to [completed] leaves
    the completion date absent. *)
Example handleStatusChange_stale_game :
  let st := initial_state [hades] in
  let st1 := handleStatusChange "2024-03-05" hades playing st in
  let st2 := handleStatusChange "2024-03-06" hades completed st1 in
  map (fun g => (status g, dateCompleted g)) (games st1) = [(playing, None)] /\
  map (fun g => (status g, dateCompleted g)) (games st2) = [(completed, None)] /\
  selectedGame st2 = selectedGame st.
Proof. repeat split. Qed.

(* ================================================================= *)
(** ** Catalog store: add *)

Lemma addGame_games (now : Z) (today : string) (gameData : Draft.t) (st : AppState) :
  games (addGame now today gameData st) =
  (games st ++ [newGame now today gameData])%list.
Proof. reflexivity. Qed.

Lemma addGames_ids (ops : list AddOp) (st : AppState) :
  map id (games (addGames ops st)) =
  (map id (games st) ++ map (fun op => Js.toString (op_now op)) ops)%list.
Proof.
  revert st; induction ops as [|[[now today] gameData] ops IH]; intros st; simpl.
  - now rewrite app_nil_r.
  - rewrite IH, addGame_games, map_app, <- app_assoc. reflexivity.
Qed.

Lemma NoDup_map_toString (l : list Z) :
  NoDup l -> NoDup (map Js.toString l).
Proof.
  induction 1 as [|n l Hn Hl IH]; simpl; constructor; [|assumption].
  rewrite in_map_iff. intros [m [E Hm]]. apply toString_inj in E. now subst.
Qed.

(** Two adds that read the same value from the clock give their games the
    same id. *)
Lemma addGame_same_clock_same_id :
  let ops := [(1717200000000, "2024-06-01", sample_draft "Hades");
              (1717200000000, "2024-06-01", sample_draft "Celeste")] in
  map id (games (addGames ops (initial_state [])))
    = ["1717200000000"; "1717200000000"] /\
  ~ NoDup (map id (games (addGames ops (initial_state [])))).
Proof.
  split; [reflexivity|].
  intros H. inversion H as [|x l Hin _]; subst. apply Hin. now left.
Qed.

(** C2, as the code has it.  Each add gives its game the decimal text of
    the clock reading as id.  When the catalog holds no id twice, the
    readings of a sequence of adds are pairwise distinct, and the text of
    no reading is an id of the catalog, the catalog holds no id twice
    after the sequence. *)
Theorem addGames_distinct_ids (ops : list AddOp) (st : AppState) :
  NoDup (map id (games st)) ->
  NoDup (map op_now ops) ->
  (forall op, In op ops -> ~ In (Js.toString (op_now op)) (map id (games st))) ->
  map id (games (addGames ops st)) =
    (map id (games st) ++ map (fun op => Js.toString (op_now op)) ops)%list /\
  NoDup (map id (games (addGames ops st))).
Proof.
  intros Hst Hops Hfresh. split; [apply addGames_ids|].
  rewrite addGames_ids.
  apply NoDup_app; [assumption | |].
  - rewrite <- (map_map op_now Js.toString).
    now apply NoDup_map_toString.
  - intros a Ha Hb. apply in_map_iff in Hb as [op [<- Hop]].
    now apply (Hfresh op).
Qed.

Lemma addGames_distinct_ids_witness :
  let ops := [(1717200000000, "2024-06-01", sample_draft "Hades");
              (1717200000001, "2024-06-01", sample_draft "Celeste")] in
  NoDup (map id (games (addGames ops (initial_state [tunic])))).
Proof.
  apply addGames_distinct_ids; simpl.
  - repeat constructor. simpl. tauto.
  - repeat constructor; simpl; intuition discriminate.
  - intros op [<- | [<- | []]]; simpl; intuition discriminate.
Defined.

(** [addGame] does not look at the title: a draft whose title is white
    space is appended and written to storage like any other. *)
Lemma addGame_accepts_blank_title :
  let st := initial_state [hades] in
  let st' := addGame 1717200000000 "2024-06-01" (sample_draft "   ") st in
  Js.blank "   " = true /\
  games st' <> games st /\ saved st' <> saved st /\
  map title (games st') = ["Hades"; "   "].
Proof. repeat split; discriminate. Qed.

(** C6, as the code has it.  Submitting the add form with a title that is
    empty or white space only does not call [addGame]: the state, and with
    it the collection and what is stored, is what it was, and nothing is
    raised.  With any other title the submission is the add. *)
Theorem handleSubmit_blank_title (now : Z) (today : string)
  (formData : Draft.t) (st : AppState) :
  Js.blank (Draft.title formData) = true ->
  handleSubmit now today formData st = st.
Proof.
  intros H. unfold handleSubmit. now rewrite truthy_trim, H.
Qed.

Lemma handleSubmit_blank_title_witness :
  handleSubmit 1717200000000 "2024-06-01" (sample_draft "   ")
               (initial_state [hades]) = initial_state [hades].
Proof. apply handleSubmit_blank_title. reflexivity. Defined.

Example handleSubmit_no_break_space :
  handleSubmit 1717200000000 "2024-06-01" (sample_draft (Js.nbsp ++ " "))
               (initial_state [hades]) = initial_state [hades].
Proof. reflexivity. Qed.

Lemma handleSubmit_titled (now : Z) (today : string)
  (formData : Draft.t) (st : AppState) :
  Js.blank (Draft.title formData) = false ->
  handleSubmit now today formData st = addGame now today formData st.
Proof.
  intros H. unfold handleSubmit. now rewrite truthy_trim, H.
Qed.

(* ================================================================= *)
(** ** Persistence adapter: load *)

Section PersistenceFacts.

Variable JSON_parse : string -> list Game + string * string.

(** The empty text is not JSON. *)
Hypothesis JSON_parse_empty : exists err, JSON_parse "" = inr err.

(** C7.  [loadGames] completes normally whatever storage holds and
    however reading it goes: with the parsed collection when the stored
    text parses, with the empty list when the key is absent, when the
    text does not parse, and when reading storage throws. *)
Theorem loadGames_never_throws (getItem : option string + string * string) :
  (exists gs, loadGames JSON_parse getItem = Js.Normal gs) /\
  (forall text gs, getItem = inl (Some text) -> JSON_parse text = inl gs ->
     loadGames JSON_parse getItem = Js.Normal gs) /\
  (forall text err, getItem = inl (Some text) -> JSON_parse text = inr err ->
     loadGames JSON_parse getItem = Js.Normal []) /\
  (getItem = inl None -> loadGames JSON_parse getItem = Js.Normal []) /\
  (forall err, getItem = inr err -> loadGames JSON_parse getItem = Js.Normal []).
Proof.
  destruct JSON_parse_empty as [err0 He].
  unfold loadGames. repeat split.
  - destruct getItem as [[text|]|[n m]]; simpl; eauto.
    destruct (Js.truthy text); simpl; eauto.
    destruct (JSON_parse text) as [gs|[n m]]; simpl; eauto.
  - intros text gs -> Hp. simpl. destruct text as [|c text]; simpl.
    + rewrite He in Hp. discriminate.
    + now rewrite Hp.
  - intros text [n m] -> Hp. simpl.
    destruct (Js.truthy text); [|reflexivity]. now rewrite Hp.
  - now intros ->.
  - now intros [n m] ->.
Qed.

End PersistenceFacts.

Lemma loadGames_never_throws_witness :
  (exists err, Ref.JSON_parse "" = inr err) /\
  (exists gs, loadGames Ref.JSON_parse (inl (Some "[]")) = Js.Normal gs).
Proof.
  assert (H : exists err, Ref.JSON_parse "" = inr err)
    by (exists ("SyntaxError", "Unexpected token"); reflexivity).
  split; [exact H|].
  exact (proj1 (loadGames_never_throws Ref.JSON_parse H (inl (Some "[]")))).
Defined.

Example loadGames_runs :
  loadGames Ref.JSON_parse (inl (Some "[]")) = Js.Normal [] /\
  loadGames Ref.JSON_parse (inl (Some "[{")) = Js.Normal [] /\
  loadGames Ref.JSON_parse (inl (Some "")) = Js.Normal [] /\
  loadGames Ref.JSON_parse (inl None) = Js.Normal [] /\
  loadGames Ref.JSON_parse (inr ("SecurityError", "denied")) = Js.Normal [].
Proof. repeat split. Qed.

(* ================================================================= *)
(** ** Query engine: filtering *)

Lemma Subseq_filter {A} (f : A -> bool) (l : list A) : Subseq (filter f l) l.
Proof.
  induction l as [|x l IH]; simpl.
  - constructor.
  - destruct (f x); now constructor.
Qed.

Lemma Subseq_nil_l {A} (l : list A) : Subseq [] l.
Proof. induction l; now constructor. Qed.

Lemma Subseq_In {A} (sub l : list A) (x : A) : Subseq sub l -> In x sub -> In x l.
Proof.
  induction 1 as [|y sub l _ IH|y sub l _ IH]; simpl; intros H; auto.
  destruct H; auto.
Qed.

Lemma Subseq_nth {A} (sub l : list A) :
  Subseq sub l ->
  forall i x, nth_error sub i = Some x ->
  exists i', nth_error l i' = Some x /\
    forall j y, (i < j)%nat -> nth_error sub j = Some y ->
    exists j', (i' < j')%nat /\ nth_error l j' = Some y.
Proof.
  induction 1 as [|z sub l H IH|z sub l H IH]; intros i x Hi.
  - destruct i; discriminate.
  - destruct i as [|i]; simpl in Hi.
    + injection Hi as ->. exists 0%nat. split; [reflexivity|].
      intros j y Hj Hy. destruct j as [|j]; [lia|]. simpl in Hy.
      destruct (IH j y Hy) as [j' [Hj' _]]. exists (S j'). split; [lia | exact Hj'].
    + destruct (IH i x Hi) as [i' [Hi' Hafter]]. exists (S i'). split; [exact Hi'|].
      intros j y Hj Hy. destruct j as [|j]; [lia|]. simpl in Hy.
      destruct (Hafter j y ltac:(lia) Hy) as [j' [Hlt Hj']].
      exists (S j'). split; [lia | exact Hj'].
  - destruct (IH i x Hi) as [i' [Hi' Hafter]]. exists (S i'). split; [exact Hi'|].
    intros j y Hj Hy. destruct (Hafter j y Hj Hy) as [j' [Hlt Hj']].
    exists (S j'). split; [lia | exact Hj'].
Qed.

Lemma Subseq_NoDup {A} (sub l : list A) : Subseq sub l -> NoDup l -> NoDup sub.
Proof.
  induction 1 as [|x sub l H IH|x sub l H IH]; intros N.
  - constructor.
  - inversion N as [|? ? Hx Hl]; subst. constructor; [|auto].
    intros Hin. apply Hx. eapply Subseq_In; eauto.
  - inversion N; subst. auto.
Qed.

Section FilterFacts.

Variable toLowerCase : string -> string.

(** C10.  The filtering stage selects from the catalog without
    reordering: the filtered list is the catalog with entries dropped; two
    entries of the filtered list, one before the other, are found in the
    catalog at two positions in the same order; and a catalog that holds
    no game twice gives a filtered list that holds no game twice. *)
Theorem filtered_preserves_catalog_order (games : list Game) (searchTerm : string)
  (selectedPlatforms selectedGenres selectedStatus : list string) :
  let result :=
    filtered toLowerCase games searchTerm selectedPlatforms selectedGenres
             selectedStatus in
  Subseq result games /\
  (forall i j x y, (i < j)%nat ->
     nth_error result i = Some x -> nth_error result j = Some y ->
     exists i' j', (i' < j')%nat /\
       nth_error games i' = Some x /\ nth_error games j' = Some y) /\
  (NoDup games -> NoDup result).
Proof.
  intros result.
  assert (S : Subseq result games) by apply Subseq_filter.
  split; [exact S | split].
  - intros i j x y Hij Hx Hy.
    destruct (Subseq_nth _ _ S i x Hx) as [i' [Hi' Hafter]].
    destruct (Hafter j y Hij Hy) as [j' [Hlt Hj']].
    now exists i', j'.
  - now apply Subseq_NoDup.
Qed.

End FilterFacts.

Lemma Array_includes_In (xs : list string) (x : string) :
  Array_includes xs x = true <-> In x xs.
Proof.
  unfold Array_includes. rewrite existsb_exists. split.
  - intros [y [Hy E]]. apply String.eqb_eq in E. now subst.
  - intros H. exists x. split; [exact H | apply String.eqb_refl].
Qed.

Lemma length_zero_nil {A} (l : list A) : (List.length l =? 0)%nat = true <-> l = [].
Proof. destruct l; simpl; split; congruence. Qed.

(** The reference sort rearranges its input. *)
Lemma Ref_place_perm {A} (cmp : A -> A -> Z) (x : A) (placed : list A) :
  Permutation (Ref.place cmp x placed) (x :: placed).
Proof.
  induction placed as [|y rest IH]; simpl.
  - reflexivity.
  - destruct (cmp x y <? 0); [|reflexivity].
    rewrite IH. apply perm_swap.
Qed.

Lemma Ref_fold_perm {A} (cmp : A -> A -> Z) (l placed : list A) :
  Permutation (fold_left (fun acc x => Ref.place cmp x acc) l placed)
              (l ++ placed).
Proof.
  revert placed; induction l as [|x l IH]; intros placed; simpl.
  - reflexivity.
  - rewrite IH, Ref_place_perm. symmetry. apply Permutation_middle.
Qed.

Lemma Ref_sort_perm {A} (cmp : A -> A -> Z) (l : list A) :
  Permutation (Ref.Array_sort cmp l) l.
Proof.
  unfold Ref.Array_sort. rewrite <- Permutation_rev, Ref_fold_perm.
  now rewrite app_nil_r.
Qed.

Lemma Ref_toLowerCase_empty : Ref.toLowerCase "" = "".
Proof. reflexivity. Qed.

Section ViewFacts.

Variable toLowerCase : string -> string.
Variable localeCompare : string -> string -> Z.
Variable Array_sort : (Game -> Game -> Z) -> list Game -> list Game.

(** Case mapping of the empty string is the empty string. *)
Hypothesis toLowerCase_empty : toLowerCase "" = "".

(** [Array.prototype.sort] rearranges the entries of the array, whatever
    the comparison function. *)
Hypothesis Array_sort_perm :
  forall cmp l, Permutation (Array_sort cmp l) l.

Lemma matchesSearch_spec (searchTerm : string) (game : Game) :
  matchesSearch toLowerCase searchTerm game = true <->
  spec_text toLowerCase searchTerm game.
Proof.
  unfold matchesSearch, spec_text, ci_match, substring_of.
  rewrite orb_true_iff, includes_spec, existsb_exists. split.
  - intros [H | [g [Hg H]]].
    + right; left. exact H.
    + right; right. exists g. split; [exact Hg | now apply includes_spec].
  - intros [-> | [H | [g [Hg H]]]].
    + left. rewrite toLowerCase_empty. now apply includes_spec, includes_empty.
    + left. exact H.
    + right. exists g. split; [exact Hg | now apply includes_spec].
Qed.

Lemma matchesPlatforms_spec (selectedPlatforms : list string) (game : Game) :
  matchesPlatforms selectedPlatforms game = true <->
  spec_platforms selectedPlatforms game.
Proof.
  unfold matchesPlatforms, spec_platforms.
  rewrite orb_true_iff, length_zero_nil, existsb_exists.
  setoid_rewrite Array_includes_In. firstorder.
Qed.

Lemma matchesGenres_spec (selectedGenres : list string) (game : Game) :
  matchesGenres selectedGenres game = true <->
  spec_genres selectedGenres game.
Proof.
  unfold matchesGenres, spec_genres.
  rewrite orb_true_iff, length_zero_nil, existsb_exists.
  setoid_rewrite Array_includes_In. firstorder.
Qed.

Lemma matchesStatus_spec (selectedStatus : list string) (game : Game) :
  matchesStatus selectedStatus game = true <->
  spec_status selectedStatus game.
Proof.
  unfold matchesStatus, spec_status.
  now rewrite orb_true_iff, length_zero_nil, Array_includes_In.
Qed.

Lemma passes_spec (searchTerm : string)
  (selectedPlatforms selectedGenres selectedStatus : list string) (game : Game) :
  passes toLowerCase searchTerm selectedPlatforms selectedGenres selectedStatus game
    = true <->
  spec_in_view toLowerCase searchTerm selectedPlatforms selectedGenres
               selectedStatus game.
Proof.
  unfold passes, spec_in_view.
  rewrite !andb_true_iff, matchesSearch_spec, matchesPlatforms_spec,
    matchesGenres_spec, matchesStatus_spec.
  tauto.
Qed.

Lemma filteredGames_perm (games : list Game) (searchTerm : string)
  (selectedPlatforms selectedGenres selectedStatus : list string)
  (sortOption : string) :
  Permutation
    (filteredGames toLowerCase localeCompare Array_sort games searchTerm
                   selectedPlatforms selectedGenres selectedStatus sortOption)
    (filtered toLowerCase games searchTerm selectedPlatforms selectedGenres
              selectedStatus).
Proof.
  unfold filteredGames.
  destruct (compareFn localeCompare sortOption); [apply Array_sort_perm | reflexivity].
Qed.

(** C3.  Whatever the sort mode, a game is in the view exactly when it is
    in the catalog and satisfies the four clauses of the specification;
    the callback of the filter decides those clauses; and the view holds
    each such game as many times as the filtered catalog does. *)
Theorem view_holds_exactly_the_matches (games : list Game) (searchTerm : string)
  (selectedPlatforms selectedGenres selectedStatus : list string)
  (sortOption : string) :
  let view :=
    filteredGames toLowerCase localeCompare Array_sort games searchTerm
                  selectedPlatforms selectedGenres selectedStatus sortOption in
  (forall g, In g view <->
     In g games /\
     spec_in_view toLowerCase searchTerm selectedPlatforms selectedGenres
                  selectedStatus g) /\
  (forall g,
     passes toLowerCase searchTerm selectedPlatforms selectedGenres
            selectedStatus g = true <->
     spec_in_view toLowerCase searchTerm selectedPlatforms selectedGenres
                  selectedStatus g) /\
  Permutation view
    (filter (passes toLowerCase searchTerm selectedPlatforms selectedGenres
                    selectedStatus) games).
Proof.
  intros view.
  assert (P : Permutation view
                (filter (passes toLowerCase searchTerm selectedPlatforms
                                selectedGenres selectedStatus) games))
    by apply filteredGames_perm.
  split; [|split; [intros g; apply passes_spec | exact P]].
  intros g. rewrite <- passes_spec, <- filter_In. split; intros H.
  - eapply Permutation_in; [exact P | exact H].
  - eapply Permutation_in; [symmetry; exact P | exact H].
Qed.

End ViewFacts.

(** The scenario of the specification, on the reference engine. *)
Example view_scenario :
  let view search statuses mode :=
    filteredGames Ref.toLowerCase Ref.localeCompare Ref.Array_sort
                  [hades; celeste] search [] [] statuses mode in
  map title (view "" [] "title-az") = ["Celeste"; "Hades"] /\
  map title (view "" [] "date-newest") = ["Celeste"; "Hades"] /\
  map title (view "" ["completed"] "date-newest") = ["Hades"] /\
  map title (view "CEL" [] "title-za") = ["Celeste"] /\
  map title (view "" [] "unknown") = ["Hades"; "Celeste"].
Proof. repeat split. Qed.

Lemma view_holds_exactly_the_matches_witness :
  let view :=
    filteredGames Ref.toLowerCase Ref.localeCompare Ref.Array_sort
                  [hades; celeste; tunic] "e" [] [] ["playing"; "completed"]
                  "title-az" in
  view = [celeste; hades] /\
  (forall g, In g view <->
     In g [hades; celeste; tunic] /\
     spec_in_view Ref.toLowerCase "e" [] [] ["playing"; "completed"] g).
Proof.
  split; [reflexivity|].
  exact (proj1 (view_holds_exactly_the_matches
                  Ref.toLowerCase Ref.localeCompare Ref.Array_sort
                  Ref_toLowerCase_empty (@Ref_sort_perm Game)
                  [hades; celeste; tunic] "e" [] [] ["playing"; "completed"]
                  "title-az")).
Defined.

(* ================================================================= *)
(** ** Query engine: random pick *)

Lemma round53_small (m : Z) : m < 2 ^ 53 -> Double.round53 m = m.
Proof.
  intros H. unfold Double.round53. apply Z.ltb_lt in H. now rewrite H.
Qed.

(** Above [2 ^ 53] the rounded number is a multiple of the last place
    kept, at most half of that place away. *)
Lemma round53_large (m : Z) :
  2 ^ 53 <= m ->
  let s := Z.log2 m - 52 in
  1 <= s /\ 2 ^ (52 + s) <= m < 2 ^ (53 + s) /\
  m / 2 ^ s * 2 ^ s <= Double.round53 m <= m + 2 ^ (s - 1).
Proof.
  intros H s.
  assert (Hpos : 0 < m) by (assert (0 < 2 ^ 53) by reflexivity; lia).
  assert (Hlog : 53 <= Z.log2 m) by (apply Z.log2_le_pow2; [exact Hpos | exact H]).
  destruct (Z.log2_spec m Hpos) as [Hlo Hhi].
  assert (Hs : 1 <= s) by (unfold s; lia).
  replace (52 + s) with (Z.log2 m) by (unfold s; lia).
  replace (53 + s) with (Z.succ (Z.log2 m)) by (unfold s; lia).
  split; [exact Hs | split; [split; assumption|]].
  unfold Double.round53.
  assert (Hge : (m <? 2 ^ 53) = false) by (apply Z.ltb_ge; exact H).
  rewrite Hge. fold s.
  assert (Hu : 0 < 2 ^ s) by (apply Z.pow_pos_nonneg; lia).
  assert (Hhalf : 2 ^ s = 2 * 2 ^ (s - 1)).
  { replace s with (Z.succ (s - 1)) at 1 by lia. apply Z.pow_succ_r. lia. }
  pose proof (Z.div_mod m (2 ^ s) ltac:(lia)) as Hdm.
  pose proof (Z.mod_pos_bound m (2 ^ s) Hu) as Hmod.
  set (q := m / 2 ^ s) in *. set (r := m mod 2 ^ s) in *.
  set (u := 2 ^ s) in *. set (h := 2 ^ (s - 1)) in *.
  destruct ((h <? r) || ((r =? h) && Z.odd q)) eqn:Eup.
  - assert (Hr : h <= r).
    { apply orb_true_iff in Eup as [E | E].
      - apply Z.ltb_lt in E. lia.
      - apply andb_true_iff in E as [E _]. apply Z.eqb_eq in E. lia. }
    clear -Hdm Hmod Hhalf Hr. nia.
  - clear -Hdm Hmod Hhalf. nia.
Qed.

Lemma pow2_split (a b : Z) : 0 <= a -> 0 <= b -> 2 ^ (a + b) = 2 ^ a * 2 ^ b.
Proof. intros. now apply Z.pow_add_r. Qed.

(** The floor of the rounded product of a draw and a count: it is a
    position below the count; it is the floor of the exact product or
    the next integer, and the next integer only when the exact product
    lies within one part in [2 ^ 53] of it. *)
Lemma floor_times_bounds (d : Double.t) (n : Z) :
  Double.unit_interval d -> 0 < n < 2 ^ 53 ->
  0 <= Double.floor_times d n < n /\
  Double.floor_exact d n <= Double.floor_times d n <= Double.floor_exact d n + 1 /\
  (Double.floor_times d n = Double.floor_exact d n + 1 ->
   2 ^ 53 * ((Double.floor_exact d n + 1) * 2 ^ Double.shift d - Double.num d * n)
     <= Double.num d * n).
Proof.
  intros ((Hm0 & Hm1) & (Hk0 & Hk1) & Hlt) (Hn0 & Hn1).
  unfold Double.floor_times, Double.floor_exact.
  set (m := Double.num d) in *. set (k := Double.shift d) in *.
  set (c := 2 ^ 53) in *.
  assert (Hc : 0 < c) by reflexivity.
  assert (HP : 0 < 2 ^ k) by (apply Z.pow_pos_nonneg; lia).
  set (P := 2 ^ k) in *.
  assert (HM0 : 0 <= m * n) by (clear -Hm0 Hn0; nia).
  assert (HMlt : m * n <= P * n - n) by (clear -Hlt Hn0; nia).
  assert (HMc : m * n < c * n) by (clear -Hm1 Hn0; nia).
  set (M := m * n) in *.
  pose proof (Z.div_mod M P ltac:(lia)) as Hdm.
  pose proof (Z.mod_pos_bound M P HP) as Hmod.
  assert (I0 : 0 <= M / P) by (apply Z.div_pos; lia).
  set (I := M / P) in *. set (rem := M mod P) in *.
  destruct (Z.lt_ge_cases M c) as [Hsmall | Hlarge].
  - rewrite (round53_small M Hsmall). fold I.
    split; [|split; [lia | intros; lia]].
    split; [exact I0|].
    apply Z.div_lt_upper_bound; [exact HP | lia].
  - destruct (round53_large M Hlarge) as (Hs & (Hlo & Hhi) & (Rlo & Rhi)).
    set (s := Z.log2 M - 52) in *. set (R := Double.round53 M) in *.
    assert (Hh : 0 < 2 ^ (s - 1)) by (apply Z.pow_pos_nonneg; lia).
    assert (Hhalf : 2 ^ s = 2 * 2 ^ (s - 1)).
    { replace s with (Z.succ (s - 1)) at 1 by lia. apply Z.pow_succ_r. lia. }
    assert (E53 : 2 ^ (52 + s) = c * 2 ^ (s - 1)).
    { unfold c. rewrite <- pow2_split by lia. f_equal. lia. }
    assert (Hsk : s <= k).
    { assert (L : 2 ^ (52 + s) < 2 ^ (k + 53)).
      { eapply Z.le_lt_trans; [exact Hlo|].
        rewrite pow2_split by lia. fold P. fold c.
        clear -HMlt HP Hn1 Hn0. nia. }
      apply Z.pow_lt_mono_r_iff in L; lia. }
    assert (Hw : 0 < 2 ^ (k - s)) by (apply Z.pow_pos_nonneg; lia).
    assert (HPs : P = 2 ^ s * 2 ^ (k - s)).
    { unfold P. rewrite <- pow2_split by lia. f_equal. lia. }
    set (h := 2 ^ (s - 1)) in *. set (u := 2 ^ s) in *. set (w := 2 ^ (k - s)) in *.
    assert (Hhn : h < n) by (clear -E53 Hlo HMc Hc Hh; nia).
    assert (HuP : u <= P) by (clear -HPs Hw Hhalf Hh; nia).
    assert (RloI : I * P <= R).
    { eapply Z.le_trans; [|exact Rlo].
      assert (Hq : I * w <= M / u).
      { apply Z.div_le_lower_bound; [lia|].
        replace (u * (I * w)) with (P * I) by (rewrite HPs; ring). lia. }
      replace (I * P) with (I * w * u) by (rewrite HPs; ring).
      apply Z.mul_le_mono_nonneg_r; [lia | exact Hq]. }
    assert (Rup : R < (I + 2) * P) by lia.
    assert (Rn : R < n * P) by lia.
    assert (C0 : I <= R / P) by (apply Z.div_le_lower_bound; lia).
    assert (C1 : R / P < I + 2) by (apply Z.div_lt_upper_bound; lia).
    assert (C2 : R / P < n) by (apply Z.div_lt_upper_bound; lia).
    split; [lia | split; [lia|]].
    intros E.
    assert (R1 : (I + 1) * P <= R).
    { pose proof (Z.div_mod R P ltac:(lia)) as Hd.
      pose proof (Z.mod_pos_bound R P HP) as Hb. rewrite E in Hd. lia. }
    assert (D : (I + 1) * P - M <= h) by lia.
    apply Z.le_trans with (c * h); [|lia].
    apply Z.mul_le_mono_nonneg_l; lia.
Qed.



(** What [pickRandomGame] does, by the eligible games of the view. *)
Lemma pickRandomGame_cases (random : Double.t) (view : list Game) (st : AppState) :
  Double.unit_interval random -> Z.of_nat (List.length view) < 2 ^ 32 ->
  (filter eligible view = [] /\ pickRandomGame random view st = st) \/
  (filter eligible view <> [] /\
   exists g,
     nth_error (filter eligible view)
               (Z.to_nat (random_index random (List.length (filter eligible view))))
       = Some g /\
     pickRandomGame random view st = setSelectedGame (Some g) st).
Proof.
  intros Hd Hlen. unfold pickRandomGame.
  cbv zeta. generalize (filter_length_le eligible view).
  generalize (filter eligible view). intros [|p pool'] Hle;
    [left; split; reflexivity|].
  right. split; [discriminate|].
  set (pool := p :: pool') in *.
  assert (Hn : (0 < List.length pool)%nat) by (simpl; lia).
  assert (Hn53 : 0 < Z.of_nat (List.length pool) < 2 ^ 53).
  { assert (2 ^ 32 < 2 ^ 53) by reflexivity. lia. }
  destruct (floor_times_bounds random _ Hd Hn53) as [R _].
  fold (random_index random (List.length pool)) in R.
  apply Nat.ltb_lt in Hn. rewrite Hn. unfold Array_get.
  destruct (random_index random (List.length pool) <? 0) eqn:E;
    [apply Z.ltb_lt in E; lia|].
  destruct (nth_error pool (Z.to_nat (random_index random (List.length pool))))
    as [g|] eqn:En.
  - exists g. split; reflexivity.
  - apply nth_error_None in En. lia.
Qed.




(* ================================================================= *)
(** ** Metadata client: the errors of a search *)

Lemma reports_invalid_key_spec (data : Rawg.Payload) :
  Rawg.reports_invalid_key data = true <-> Rawg.carries_invalid_key_detail data.
Proof.
  unfold Rawg.reports_invalid_key, Rawg.carries_invalid_key_detail.
  destruct (Rawg.detail data) as [d|].
  - rewrite andb_true_iff, includes_spec. split.
    + intros [_ H]. now exists d.
    + intros [d' [E H]]. injection E as <-. split; [|exact H].
      destruct H as [pre [post ->]]. now destruct pre.
  - split; [discriminate | intros [d [E _]]; discriminate].
Qed.

Lemma NetworkError_not_AuthError (status : Z) :
  Rawg.NetworkError status <> Rawg.AuthError.
Proof. unfold Rawg.NetworkError, Rawg.AuthError. simpl. discriminate. Qed.

(** The message of a network error does not mention the API key,
    whatever the status. *)
Lemma NetworkError_message (status : Z) :
  Rawg.mentions_api_key (Rawg.NetworkError status) = false.
Proof.
  cbv [Rawg.mentions_api_key Rawg.NetworkError Js.message_of].
  destruct (Js.includes _ _) eqn:E; [|reflexivity].
  apply includes_first_char in E.
  rewrite list_ascii_of_string_app in E. apply in_app_or in E as [E | E].
  - simpl in E. repeat (destruct E as [E | E]; [discriminate|]). destruct E.
  - apply toString_chars in E. discriminate.
Qed.

Section ClientFacts.

Variable encodeURIComponent : string -> string.
Variable fetch : string -> Rawg.Response + string * string.
Variable JSON_parse : string -> Rawg.Payload + string * string.

(** C8.  For a query and a key that are not blank, so that a request is
    made: the search throws the authentication error exactly when the
    request was answered with a success status and a body that decodes to
    a response whose [detail] field holds the text [Invalid API key]; it
    throws the network error of the status when the answer has a status
    outside the success range; and the two are told apart, as values and
    by the test the caller applies to the message. *)
Theorem searchGames_error_taxonomy (query apiKey : string) :
  Js.blank query = false -> Js.blank apiKey = false ->
  (Rawg.searchGames encodeURIComponent fetch JSON_parse query apiKey
     = Js.Throw Rawg.AuthError <->
   exists response proxyData data,
     fetch (Rawg.proxyUrl encodeURIComponent query apiKey) = inl response /\
     Rawg.ok response = true /\
     Rawg.json response = inl proxyData /\
     JSON_parse (Rawg.contents proxyData) = inl data /\
     Rawg.carries_invalid_key_detail data) /\
  (forall response,
     fetch (Rawg.proxyUrl encodeURIComponent query apiKey) = inl response ->
     Rawg.ok response = false ->
     Rawg.searchGames encodeURIComponent fetch JSON_parse query apiKey
       = Js.Throw (Rawg.NetworkError (Rawg.status response))) /\
  (forall status,
     Rawg.NetworkError status <> Rawg.AuthError /\
     Rawg.mentions_api_key Rawg.AuthError = true /\
     Rawg.mentions_api_key (Rawg.NetworkError status) = false).
Proof.
  intros Hq Hk. unfold Rawg.searchGames.
  rewrite !truthy_trim, Hq, Hk. simpl negb. simpl orb. cbv iota.
  split; [|split].
  - split.
    + destruct (fetch (Rawg.proxyUrl encodeURIComponent query apiKey))
        as [response|[n m]] eqn:Ef; simpl; [|discriminate].
      destruct (Rawg.ok response) eqn:Eok; simpl.
      * destruct (Rawg.json response) as [proxyData|[n m]] eqn:Ej; simpl; [|discriminate].
        destruct (JSON_parse (Rawg.contents proxyData)) as [data|[n m]] eqn:Ep;
          simpl; [|discriminate].
        destruct (Rawg.reports_invalid_key data) eqn:Er; simpl; [|discriminate].
        intros _. exists response, proxyData, data.
        repeat (split; [first [assumption | reflexivity]|]).
        now apply reports_invalid_key_spec.
      * intros H. exfalso. apply (NetworkError_not_AuthError (Rawg.status response)).
        congruence.
    + intros [response [proxyData [data [Ef [Eok [Ej [Ep Hd]]]]]]].
      apply reports_invalid_key_spec in Hd.
      rewrite Ef. simpl. rewrite Eok. simpl. rewrite Ej. simpl. rewrite Ep. simpl.
      now rewrite Hd.
  - intros response Ef Eok. rewrite Ef. simpl. now rewrite Eok.
  - intros status. split; [apply NetworkError_not_AuthError|].
    split; [reflexivity | apply NetworkError_message].
Qed.

End ClientFacts.

Lemma searchGames_error_taxonomy_witness :
  Rawg.searchGames Ref.encodeURIComponent (Ref.fetch 200 "rejected") Ref.decode
                   "hades" "k3y" = Js.Throw Rawg.AuthError /\
  Rawg.searchGames Ref.encodeURIComponent (Ref.fetch 503 "rejected") Ref.decode
                   "hades" "k3y" = Js.Throw (Rawg.NetworkError 503).
Proof.
  assert (Hq : Js.blank "hades" = false) by reflexivity.
  assert (Hk : Js.blank "k3y" = false) by reflexivity.
  split.
  - apply (proj1 (searchGames_error_taxonomy Ref.encodeURIComponent
                    (Ref.fetch 200 "rejected") Ref.decode "hades" "k3y" Hq Hk)).
    eexists _, _, _. repeat split; try reflexivity.
    exists "Invalid API key provided.". split; [reflexivity|].
    now exists "", " provided.".
  - apply (proj1 (proj2 (searchGames_error_taxonomy Ref.encodeURIComponent
                    (Ref.fetch 503 "rejected") Ref.decode "hades" "k3y" Hq Hk))
             (Rawg.mkResponse false 503 (inl (Rawg.mkProxyData "rejected"))));
      reflexivity.
Defined.

Example searchGames_runs :
  Rawg.searchGames Ref.encodeURIComponent (Ref.fetch 200 "found") Ref.decode
                   "hades" "k3y"
    = Js.Normal [Rawg.mkRAWGGame 3498 "Hades" None None None None None (Some 93)] /\
  Rawg.searchGames Ref.encodeURIComponent (Ref.fetch 200 "empty") Ref.decode
                   "hades" "k3y" = Js.Normal [] /\
  Rawg.searchGames Ref.encodeURIComponent (Ref.fetch 200 "found") Ref.decode
                   "  " "k3y" = Js.Normal [] /\
  Rawg.searchGames Ref.encodeURIComponent (Ref.fetch 200 "found") Ref.decode
                   "hades" "" = Js.Normal [] /\
  Rawg.searchGames Ref.encodeURIComponent (Ref.fetch 200 "<html>") Ref.decode
                   "hades" "k3y"
    = Js.Throw (Js.EngineError "SyntaxError" "Unexpected token") /\
  Rawg.searchError_for Rawg.AuthError
    = "Invalid API key. Please check your RAWG.io API key in settings." /\
  Rawg.searchError_for (Rawg.NetworkError 503) = "Search failed. Please try again.".
Proof. repeat split. Qed.

(* ================================================================= *)
(** ** Query engine: sorting *)

Lemma str_ltb_irrefl (s : string) : Js.str_ltb s s = false.
Proof.
  induction s as [|c s IH]; simpl; [reflexivity|].
  now rewrite Ascii.eqb_refl.
Qed.

Lemma filter_filter_imp {A} (p q : A -> bool) (l : list A) :
  (forall y, In y l -> q y = true -> p y = true) ->
  filter q (filter p l) = filter q l.
Proof.
  induction l as [|y l IH]; intros H; simpl; [reflexivity|].
  destruct (p y) eqn:Ep; simpl.
  - rewrite IH by (intros; apply H; simpl; auto). reflexivity.
  - destruct (q y) eqn:Eq.
    + rewrite H in Ep by (simpl; auto). discriminate.
    + apply IH. intros; apply H; simpl; auto.
Qed.

Lemma filter_refine {A} (p q : A -> bool) (l l' : list A) :
  (forall y, q y = true -> p y = true) ->
  filter p l = filter p l' -> filter q l = filter q l'.
Proof.
  intros H E.
  rewrite <- (filter_filter_imp p q l), <- (filter_filter_imp p q l') by auto.
  now rewrite E.
Qed.

(** Comparison functions built from a consistent one. *)
Lemma consistent_by_key {A B} (cmp : B -> B -> Z) (key : A -> B) (l : list A) :
  consistent cmp (map key l) ->
  consistent (fun a b => cmp (key a) (key b)) l.
Proof.
  intros (H1 & H2 & H3 & H4 & H5).
  split; [|split; [|split; [|split]]]; intros.
  - apply H1; auto using in_map.
  - apply H2; auto using in_map.
  - apply (H3 (key a) (key b) (key c)); auto using in_map.
  - apply (H4 (key a) (key b) (key c)); auto using in_map.
  - apply (H5 (key a) (key b) (key c)); auto using in_map.
Qed.

Lemma consistent_flip {A} (cmp : A -> A -> Z) (l : list A) :
  consistent cmp l -> consistent (fun a b => cmp b a) l.
Proof.
  intros (H1 & H2 & H3 & H4 & H5).
  split; [|split; [|split; [|split]]]; intros.
  - apply H1; auto.
  - pose proof (H2 a b). pose proof (H2 b a). intuition lia.
  - apply (H3 c b a); auto.
  - apply (H5 c b a); auto.
  - apply (H4 c b a); auto.
Qed.

Lemma consistent_difference {A} (key : A -> Z) (l : list A) :
  consistent (fun a b => key a - key b) l.
Proof. split; [|split; [|split; [|split]]]; intros; lia. Qed.

(** The reference sort keeps entries of equal key in their order and
    returns its entries in the order of the comparison function, when
    that function is consistent. *)
Lemma Ref_place_same_key {A} (cmp : A -> A -> Z) (z x : A) (placed : list A) :
  (forall y, In y placed -> cmp z x = 0 -> cmp x y < 0 -> cmp z y <> 0) ->
  same_key cmp z (Ref.place cmp x placed) =
  ((if cmp z x =? 0 then [x] else []) ++ same_key cmp z placed)%list.
Proof.
  unfold same_key.
  induction placed as [|y rest IH]; intros H; simpl.
  - destruct (cmp z x =? 0); reflexivity.
  - destruct (cmp x y <? 0) eqn:Exy; simpl.
    + rewrite IH by (intros; apply H; simpl; auto).
      destruct (cmp z x =? 0) eqn:Ezx; simpl; [|reflexivity].
      destruct (cmp z y =? 0) eqn:Ezy; simpl; [|reflexivity].
      exfalso. apply (H y); simpl; auto; lia.
    + destruct (cmp z x =? 0); reflexivity.
Qed.

Lemma Ref_fold_same_key {A} (cmp : A -> A -> Z) (l : list A) (z : A) :
  (forall x y, In x l -> In y l -> cmp z x = 0 -> cmp x y < 0 -> cmp z y <> 0) ->
  forall todo placed, incl todo l -> incl placed l ->
    same_key cmp z (fold_left (fun acc x => Ref.place cmp x acc) todo placed) =
    (rev (same_key cmp z todo) ++ same_key cmp z placed)%list.
Proof.
  intros H. induction todo as [|x todo IH]; intros placed Ht Hp; simpl.
  - reflexivity.
  - assert (Hx : In x l) by (apply Ht; simpl; auto).
    rewrite IH.
    + rewrite Ref_place_same_key by (intros; apply (H x y); auto).
      unfold same_key at 3. simpl.
      destruct (cmp z x =? 0); simpl; [|reflexivity].
      now rewrite <- app_assoc.
    + intros y Hy. apply Ht. simpl. auto.
    + intros y Hy.
      apply (Permutation_in _ (Ref_place_perm cmp x placed)) in Hy.
      destruct Hy as [<- | Hy]; auto.
Qed.

Lemma same_key_rev {A} (cmp : A -> A -> Z) (z : A) (l : list A) :
  same_key cmp z (rev l) = rev (same_key cmp z l).
Proof. apply filter_rev. Qed.

Lemma Ref_sort_stable {A} (cmp : A -> A -> Z) (l : list A) :
  consistent cmp l -> stable_wrt cmp l (Ref.Array_sort cmp l).
Proof.
  intros (H1 & H2 & H3 & H4 & H5) z Hz. unfold Ref.Array_sort.
  rewrite same_key_rev, (Ref_fold_same_key cmp l z).
  - rewrite app_nil_r. apply rev_involutive.
  - intros x y Hx Hy E Hlt. pose proof (H4 z x y Hz Hx Hy E Hlt). lia.
  - apply incl_refl.
  - intros y [].
Qed.

Lemma StronglySorted_snoc {A} (R : A -> A -> Prop) (l : list A) (x : A) :
  StronglySorted R l -> Forall (fun y => R y x) l -> StronglySorted R (l ++ [x]).
Proof.
  induction 1 as [|y l Hs IH Hy]; intros Hx; simpl.
  - repeat constructor.
  - inversion Hx; subst. constructor; [auto|].
    apply Forall_app. split; [assumption | now constructor].
Qed.

Lemma StronglySorted_rev {A} (R : A -> A -> Prop) (l : list A) :
  StronglySorted (fun a b => R b a) l -> StronglySorted R (rev l).
Proof.
  induction 1 as [|y l Hs IH Hy]; simpl.
  - constructor.
  - apply StronglySorted_snoc; [assumption | now apply Forall_rev].
Qed.

Lemma Ref_place_sorted {A} (cmp : A -> A -> Z) (l : list A) (x : A) (placed : list A) :
  consistent cmp l -> In x l -> incl placed l ->
  StronglySorted (fun a b => cmp b a <= 0) placed ->
  StronglySorted (fun a b => cmp b a <= 0) (Ref.place cmp x placed).
Proof.
  intros (H1 & H2 & H3 & H4 & H5) Hx.
  induction placed as [|y rest IH]; intros Hp Hs; simpl.
  - repeat constructor.
  - assert (Hy : In y l) by (apply Hp; simpl; auto).
    assert (Hrest : incl rest l) by (intros b Hb; apply Hp; simpl; auto).
    inversion Hs as [|? ? Hs' Hall]; subst.
    destruct (cmp x y <? 0) eqn:E.
    + apply Z.ltb_lt in E. constructor; [now apply IH|].
      apply (Permutation_Forall (Permutation_sym (Ref_place_perm cmp x rest))).
      constructor; [lia | assumption].
    + apply Z.ltb_ge in E. constructor; [assumption|].
      assert (Hyx : cmp y x <= 0) by (pose proof (H2 x y Hx Hy); lia).
      constructor; [exact Hyx|].
      rewrite Forall_forall in *. intros b Hb.
      apply (H3 b y x); auto.
Qed.

Lemma Ref_sort_sorted {A} (cmp : A -> A -> Z) (l : list A) :
  consistent cmp l ->
  StronglySorted (fun a b => cmp a b <= 0) (Ref.Array_sort cmp l).
Proof.
  intros Hc. unfold Ref.Array_sort. apply StronglySorted_rev.
  assert (G : forall todo placed, incl todo l -> incl placed l ->
            StronglySorted (fun a b => cmp b a <= 0) placed ->
            StronglySorted (fun a b => cmp b a <= 0)
              (fold_left (fun acc x => Ref.place cmp x acc) todo placed)).
  { induction todo as [|x todo IH]; intros placed Ht Hp Hs; simpl; [assumption|].
    assert (Hx : In x l) by (apply Ht; simpl; auto).
    apply IH.
    - intros y Hy. apply Ht. simpl. auto.
    - intros y Hy.
      apply (Permutation_in _ (Ref_place_perm cmp x placed)) in Hy.
      destruct Hy as [<- | Hy]; auto.
    - now apply (Ref_place_sorted cmp l). }
  apply G; [apply incl_refl | intros y [] | constructor].
Qed.

(** Collation by code units is consistent. *)
Lemma str_ltb_trans (a b c : string) :
  Js.str_ltb a b = true -> Js.str_ltb b c = true -> Js.str_ltb a c = true.
Proof.
  revert b c; induction a as [|x a IH]; intros [|y b] [|z c]; simpl;
    try discriminate; auto.
  destruct (Ascii.eqb_spec x y) as [->|Hxy]; destruct (Ascii.eqb_spec y z) as [->|Hyz].
  - apply IH.
  - intros _ H. exact H.
  - destruct (Ascii.eqb_spec x z) as [->|Hxz]; [contradiction|]. intros H _. exact H.
  - intros H1 H2. apply Nat.ltb_lt in H1, H2.
    destruct (Ascii.eqb_spec x z) as [->|Hxz]; [lia|]. apply Nat.ltb_lt. lia.
Qed.

Lemma str_ltb_total (a b : string) :
  Js.str_ltb a b = false -> Js.str_ltb b a = false -> a = b.
Proof.
  revert b; induction a as [|x a IH]; intros [|y b]; simpl; try discriminate; auto.
  rewrite (Ascii.eqb_sym y x).
  destruct (Ascii.eqb_spec x y) as [->|Hxy].
  - intros H1 H2. f_equal. now apply IH.
  - intros H1 H2. apply Nat.ltb_ge in H1, H2. exfalso. apply Hxy.
    rewrite <- (ascii_nat_embedding x), <- (ascii_nat_embedding y).
    f_equal. lia.
Qed.

Lemma str_ltb_asym (a b : string) :
  Js.str_ltb a b = true -> Js.str_ltb b a = false.
Proof.
  intros H. destruct (Js.str_ltb b a) eqn:E; [|reflexivity].
  pose proof (str_ltb_trans _ _ _ H E) as T. now rewrite str_ltb_irrefl in T.
Qed.

Lemma Status_eqb_eq (a b : Status) : Status_eqb a b = true -> a = b.
Proof. destruct a, b; simpl; congruence. Qed.

Lemma Ref_localeCompare_cases (a b : string) :
  (Js.str_ltb a b = true /\ Ref.localeCompare a b = -1 /\ Ref.localeCompare b a = 1) \/
  (a = b /\ Ref.localeCompare a b = 0 /\ Ref.localeCompare b a = 0) \/
  (Js.str_ltb b a = true /\ Ref.localeCompare a b = 1 /\ Ref.localeCompare b a = -1).
Proof.
  unfold Ref.localeCompare.
  destruct (Js.str_ltb a b) eqn:Eab.
  - left. rewrite (str_ltb_asym _ _ Eab). auto.
  - destruct (Js.str_ltb b a) eqn:Eba.
    + right; right. auto.
    + right; left. auto using str_ltb_total.
Qed.

Lemma Ref_localeCompare_consistent (l : list string) :
  consistent Ref.localeCompare l.
Proof.
  split; [|split; [|split; [|split]]].
  - intros a _. unfold Ref.localeCompare. now rewrite str_ltb_irrefl.
  - intros a b _ _. destruct (Ref_localeCompare_cases a b) as [H|[H|H]]; lia.
  - intros a b c _ _ _.
    destruct (Ref_localeCompare_cases a b) as [(L1 & E1 & _)|[(-> & _)|(_ & E1 & _)]];
      [| auto | lia].
    destruct (Ref_localeCompare_cases b c) as [(L2 & E2 & _)|[(-> & _)|(_ & E2 & _)]];
      [| lia | lia].
    intros _ _. pose proof (str_ltb_trans _ _ _ L1 L2) as T.
    unfold Ref.localeCompare. rewrite T. lia.
  - intros a b c _ _ _.
    destruct (Ref_localeCompare_cases a b) as [(_ & E1 & _)|[(-> & _)|(_ & E1 & _)]];
      [lia | auto | lia].
  - intros a b c _ _ _.
    destruct (Ref_localeCompare_cases b c) as [(_ & E1 & _)|[(-> & _)|(_ & E1 & _)]];
      [lia | auto | lia].
Qed.

(** On two games added the same day, the comparison functions of the two
    date modes answer [-1] in both directions: neither returns 0. *)
Lemma date_modes_never_tie (localeCompare : string -> string -> Z) (a b : Game) :
  dateAdded a = dateAdded b ->
  forall mode cmp, mode = "date-oldest" \/ mode = "date-newest" ->
    compareFn localeCompare mode = Some cmp ->
    cmp a b = -1 /\ cmp b a = -1 /\ cmp a a = -1.
Proof.
  intros E mode cmp [-> | ->] H; injection H as <-;
    unfold Js.str_gtb; rewrite E, !str_ltb_irrefl; auto.
Qed.

Section SortFacts.

Variable toLowerCase : string -> string.
Variable localeCompare : string -> string -> Z.
Variable Array_sort : (Game -> Game -> Z) -> list Game -> list Game.

(** Collation orders strings as a total preorder, and the sort of the
    engine is stable for a consistent comparison function. *)
Hypothesis localeCompare_consistent :
  forall l : list string, consistent localeCompare l.
Hypothesis Array_sort_stable :
  forall cmp l, consistent cmp l -> stable_wrt cmp l (Array_sort cmp l).

Lemma stable_by_comparison (mode : string) (cmp : Game -> Game -> Z)
  (result : list Game) :
  consistent cmp result ->
  (forall x y, In x result -> sort_key_eqb mode x y = true -> cmp x y = 0) ->
  stable_view mode result (Array_sort cmp result).
Proof.
  intros Hc Hkey x Hx.
  apply (filter_refine (fun y => cmp x y =? 0)).
  - intros y E. apply Z.eqb_eq. now apply Hkey.
  - now apply Array_sort_stable.
Qed.

(** The five modes whose comparison function returns 0 on equal keys, and
    the modes outside the table, give a stable view. *)
Theorem view_stable_except_by_date (games : list Game) (searchTerm : string)
  (selectedPlatforms selectedGenres selectedStatus : list string)
  (sortOption : string) :
  sortOption <> "date-oldest" -> sortOption <> "date-newest" ->
  stable_view sortOption
    (filtered toLowerCase games searchTerm selectedPlatforms selectedGenres
              selectedStatus)
    (filteredGames toLowerCase localeCompare Array_sort games searchTerm
                   selectedPlatforms selectedGenres selectedStatus sortOption).
Proof.
  intros Hold Hnew. unfold filteredGames.
  set (result := filtered toLowerCase games searchTerm selectedPlatforms
                          selectedGenres selectedStatus).
  pose proof (localeCompare_consistent (map title result)) as Ctitle.
  pose proof (localeCompare_consistent
                (map (fun g => status_code (status g)) result)) as Cstatus.
  unfold compareFn.
  destruct (String.eqb_spec sortOption "title-az") as [->|_].
  { apply stable_by_comparison.
    - now apply (consistent_by_key localeCompare title).
    - intros x y Hx E. simpl in E. apply String.eqb_eq in E. rewrite <- E.
      apply Ctitle; now apply in_map. }
  destruct (String.eqb_spec sortOption "title-za") as [->|_].
  { apply stable_by_comparison.
    - apply consistent_flip. now apply (consistent_by_key localeCompare title).
    - intros x y Hx E. simpl in E. apply String.eqb_eq in E. rewrite <- E.
      apply Ctitle; now apply in_map. }
  destruct (String.eqb_spec sortOption "date-oldest") as [->|_]; [contradiction|].
  destruct (String.eqb_spec sortOption "date-newest") as [->|_]; [contradiction|].
  destruct (String.eqb_spec sortOption "status") as [->|_].
  { apply stable_by_comparison.
    - now apply (consistent_by_key localeCompare (fun g => status_code (status g))).
    - intros x y Hx E. simpl in E.
      apply Status_eqb_eq in E as Es.
      rewrite <- Es. destruct Cstatus as [R _]. apply R.
      now apply (in_map (fun g => status_code (status g))). }
  destruct (String.eqb_spec sortOption "rating-high") as [->|_].
  { apply stable_by_comparison.
    - apply consistent_flip. apply consistent_difference.
    - intros x y Hx E. simpl in E. apply Z.eqb_eq in E. lia. }
  destruct (String.eqb_spec sortOption "rating-low") as [->|_].
  { apply stable_by_comparison.
    - apply consistent_difference.
    - intros x y Hx E. simpl in E. apply Z.eqb_eq in E. lia. }
  intros x Hx. reflexivity.
Qed.

End SortFacts.

Lemma view_stable_except_by_date_witness :
  stable_view "rating-high"
    (filtered Ref.toLowerCase [hades; celeste; tunic] "" [] [] [])
    (filteredGames Ref.toLowerCase Ref.localeCompare Ref.Array_sort
                   [hades; celeste; tunic] "" [] [] [] "rating-high").
Proof.
  apply (view_stable_except_by_date Ref.toLowerCase Ref.localeCompare Ref.Array_sort
           Ref_localeCompare_consistent (@Ref_sort_stable Game));
    discriminate.
Defined.

(** C4, on the code.  Celeste and Tunic were added the same day and pass
    every filter, Celeste first.  The comparison function of either date
    mode answers [-1] for the pair in both orders, where the functions of
    the other modes answer 0 on equal keys; the reference engine, whose
    sort is stable for every consistent comparison function, then returns
    Tunic before Celeste.  In the rating mode, where the two games have
    equal keys as well, the same engine keeps Celeste first. *)
Theorem date_sort_reverses_same_day_games :
  let result := filtered Ref.toLowerCase [celeste; tunic] "" [] [] [] in
  let view mode :=
    filteredGames Ref.toLowerCase Ref.localeCompare Ref.Array_sort
                  [celeste; tunic] "" [] [] [] mode in
  result = [celeste; tunic] /\
  dateAdded celeste = dateAdded tunic /\
  (forall mode cmp, mode = "date-oldest" \/ mode = "date-newest" ->
     compareFn Ref.localeCompare mode = Some cmp ->
     cmp celeste tunic = -1 /\ cmp tunic celeste = -1) /\
  view "date-newest" = [tunic; celeste] /\
  view "date-oldest" = [tunic; celeste] /\
  ~ stable_view "date-newest" result (view "date-newest") /\
  ~ stable_view "date-oldest" result (view "date-oldest") /\
  view "rating-high" = [celeste; tunic].
Proof.
  split; [reflexivity | split; [reflexivity | split]].
  - intros mode cmp Hm Hc.
    destruct (date_modes_never_tie Ref.localeCompare celeste tunic eq_refl mode cmp Hm Hc)
      as (H1 & H2 & _).
    now split.
  - repeat split; try reflexivity;
      intros H; specialize (H celeste (or_introl eq_refl)); discriminate H.
Qed.

(* ================================================================= *)
(** ** Catalog store: delete, and what a status change leaves alone *)

Lemma deleteGame_games (gameId : string) (st : AppState) :
  games (deleteGame gameId st) =
  filter (fun game => negb (String.eqb (id game) gameId)) (games st).
Proof. reflexivity. Qed.

Lemma filter_all {A} (f : A -> bool) (l : list A) :
  (forall x, In x l -> f x = true) -> filter f l = l.
Proof.
  induction l as [|x l IH]; intros H; simpl; [reflexivity|].
  rewrite (H x) by (simpl; auto). f_equal. apply IH. intros; apply H; simpl; auto.
Qed.

Lemma filter_idem {A} (f : A -> bool) (l : list A) :
  filter f (filter f l) = filter f l.
Proof. apply filter_all. intros x Hx. now apply filter_In in Hx. Qed.

(** X1.  [deleteGame] removes every game that carries the id and no
    other, keeps the remaining games in their order, stores the result
    and clears the selection; when no game carries the id the collection
    is what it was; deleting the same id again changes nothing more. *)
Theorem deleteGame_removes_exactly (gameId : string) (st : AppState) :
  (forall g, In g (games (deleteGame gameId st)) <->
             In g (games st) /\ id g <> gameId) /\
  Subseq (games (deleteGame gameId st)) (games st) /\
  selectedGame (deleteGame gameId st) = None /\
  saved (deleteGame gameId st) = games (deleteGame gameId st) /\
  ((forall g, In g (games st) -> id g <> gameId) ->
     games (deleteGame gameId st) = games st) /\
  games (deleteGame gameId (deleteGame gameId st)) = games (deleteGame gameId st).
Proof.
  rewrite !deleteGame_games. split; [|split; [|split; [|split; [|split]]]].
  - intros g. rewrite filter_In, negb_true_iff, String.eqb_neq. reflexivity.
  - apply Subseq_filter.
  - reflexivity.
  - reflexivity.
  - intros H. apply filter_all. intros g Hg.
    apply negb_true_iff, String.eqb_neq. now apply H.
  - apply filter_idem.
Qed.

(** X2.  Deleting by the id an add has just assigned removes the new game
    together with every older game of that id; when the id was not in the
    collection, the collection is back to what it was before the add. *)
Theorem deleteGame_undoes_addGame (now : Z) (today : string)
  (gameData : Draft.t) (st : AppState) :
  let st' := deleteGame (Js.toString now) (addGame now today gameData st) in
  games st' = games (deleteGame (Js.toString now) st) /\
  (~ In (Js.toString now) (map id (games st)) -> games st' = games st) /\
  ~ In (Js.toString now) (map id (games st')).
Proof.
  cbv zeta. rewrite !deleteGame_games, addGame_games, filter_app. simpl.
  rewrite String.eqb_refl. simpl. rewrite app_nil_r.
  split; [reflexivity | split].
  - intros Hfresh. apply filter_all. intros g Hg.
    apply negb_true_iff, String.eqb_neq. intros E. apply Hfresh.
    rewrite <- E. now apply in_map.
  - rewrite in_map_iff. intros [g [E Hg]]. apply filter_In in Hg as [_ Hg].
    apply negb_true_iff, String.eqb_neq in Hg. contradiction.
Qed.

Lemma Forall2_map_self {A B} (R : A -> B -> Prop) (f : A -> B) (l : list A) :
  (forall x, R x (f x)) -> Forall2 R l (map f l).
Proof. intros H. induction l; simpl; constructor; auto. Qed.

Lemma same_but_status_refl (g : Game) : same_but_status g g.
Proof. unfold same_but_status. repeat split. Qed.

Lemma merge_status_only (g : Game) (s : Status) :
  same_but_status g (merge g (status_only s)).
Proof. unfold same_but_status. repeat split. Qed.

Lemma merge_statusChange (today : string) (game g : Game) (s : Status) :
  same_but_status g (merge g (statusChange_updates today game s)).
Proof.
  unfold statusChange_updates.
  destruct (Status_eqb s completed && negb (Status_eqb (status game) completed));
    [|destruct (negb (Status_eqb s completed))];
    unfold same_but_status; repeat split.
Qed.

(** X3.  A status change, from a card or from the detail view, alters no
    field of any game other than the status and the completion date: id,
    title, date of addition and the rest stay, position by position; the
    selection and the add form are not touched. *)
Theorem status_change_frame (today : string) (game : Game) (s : Status)
  (st : AppState) :
  Forall2 same_but_status (games st) (games (card_onStatusChange game s st)) /\
  Forall2 same_but_status (games st) (games (handleStatusChange today game s st)) /\
  selectedGame (card_onStatusChange game s st) = selectedGame st /\
  selectedGame (handleStatusChange today game s st) = selectedGame st /\
  showAddForm (card_onStatusChange game s st) = showAddForm st /\
  showAddForm (handleStatusChange today game s st) = showAddForm st.
Proof.
  unfold card_onStatusChange, handleStatusChange. rewrite !updateGame_games.
  split; [|split; [|repeat split]].
  - apply Forall2_map_self. intros g.
    destruct (String.eqb (id g) (id game));
      [apply merge_status_only | apply same_but_status_refl].
  - apply Forall2_map_self. intros g.
    destruct (String.eqb (id g) (id game));
      [apply merge_statusChange | apply same_but_status_refl].
Qed.

(* ================================================================= *)
(** ** Filter controls *)

Lemma toggleOption_In (selected : list string) (o x : string) :
  In x (toggleOption selected o) <->
  (x <> o /\ In x selected) \/ (x = o /\ ~ In o selected).
Proof.
  unfold toggleOption. destruct (Array_includes selected o) eqn:E.
  - apply Array_includes_In in E.
    rewrite filter_In, negb_true_iff, String.eqb_neq. tauto.
  - assert (N : ~ In o selected)
      by (intros H; apply Array_includes_In in H; congruence).
    rewrite in_app_iff. simpl. split.
    + intros [H | [<- | []]]; [left | right; auto].
      split; [intros ->; contradiction | exact H].
    + intros [[_ H] | [-> _]]; auto.
Qed.

(** X4.  [toggleOption] selects the option when it was not selected and
    deselects it when it was; every other option is selected after
    exactly when it was before; a selection without repetitions stays
    without; and two presses give back the selection it started from, as
    a set. *)
Theorem toggleOption_flips_one (selected : list string) (o : string) :
  Array_includes (toggleOption selected o) o = negb (Array_includes selected o) /\
  (forall x, x <> o -> (In x (toggleOption selected o) <-> In x selected)) /\
  (NoDup selected -> NoDup (toggleOption selected o)) /\
  (forall x, In x (toggleOption (toggleOption selected o) o) <-> In x selected).
Proof.
  split; [|split; [|split]].
  - destruct (Array_includes selected o) eqn:E; simpl.
    + destruct (Array_includes (toggleOption selected o) o) eqn:E'; [|reflexivity].
      apply Array_includes_In, toggleOption_In in E'.
      apply Array_includes_In in E. tauto.
    + apply Array_includes_In, toggleOption_In. right. split; [reflexivity|].
      intros H. apply Array_includes_In in H. congruence.
  - intros x Hx. rewrite toggleOption_In. tauto.
  - intros N. unfold toggleOption. destruct (Array_includes selected o) eqn:E.
    + now apply NoDup_filter.
    + apply NoDup_app; [assumption | repeat constructor; simpl; tauto |].
      intros a Ha [<- | []]. apply Array_includes_In in Ha. congruence.
  - intros x. rewrite !toggleOption_In.
    destruct (String.eqb_spec x o) as [->|Hx]; [|tauto].
    destruct (in_dec string_dec o selected); tauto.
Qed.

(** X5.  [toggleArrayField] flips the membership of the value in the list
    it names, leaves the membership of every other value in that list,
    and leaves the other list, the rest of the form and the rest of the
    dialog as they were. *)
Theorem toggleArrayField_flips_one (v : string) (st : AddGameModal.t) :
  let p := AddGameModal.toggleArrayField AddGameModal.field_platforms v st in
  let g := AddGameModal.toggleArrayField AddGameModal.field_genres v st in
  let form := AddGameModal.formData in
  (forall x, In x (Draft.platforms (form p)) <->
     (x <> v /\ In x (Draft.platforms (form st))) \/
     (x = v /\ ~ In v (Draft.platforms (form st)))) /\
  (forall x, In x (Draft.genres (form g)) <->
     (x <> v /\ In x (Draft.genres (form st))) \/
     (x = v /\ ~ In v (Draft.genres (form st)))) /\
  Draft.genres (form p) = Draft.genres (form st) /\
  Draft.platforms (form g) = Draft.platforms (form st) /\
  (forall st', st' = p \/ st' = g ->
     Draft.title (form st') = Draft.title (form st) /\
     Draft.status (form st') = Draft.status (form st) /\
     Draft.rating (form st') = Draft.rating (form st) /\
     Draft.notes (form st') = Draft.notes (form st) /\
     Draft.rawgId (form st') = Draft.rawgId (form st) /\
     AddGameModal.searchResults st' = AddGameModal.searchResults st /\
     AddGameModal.selectedGameData st' = AddGameModal.selectedGameData st).
Proof.
  cbv zeta. split; [|split; [|split; [|split]]].
  - intros x. apply (toggleOption_In (Draft.platforms (AddGameModal.formData st)) v x).
  - intros x. apply (toggleOption_In (Draft.genres (AddGameModal.formData st)) v x).
  - reflexivity.
  - reflexivity.
  - intros st' [-> | ->]; repeat split.
Qed.

Lemma status_code_roundtrip (c : string) :
  In c (map StatusOption.value STATUS_OPTIONS) ->
  value_of_label (label_of_value c) = c.
Proof.
  simpl. intros [<- | [<- | [<- | [<- | []]]]]; reflexivity.
Qed.

Lemma status_option_label (opt : StatusOption.t) :
  In opt STATUS_OPTIONS ->
  label_of_value (StatusOption.value opt) = StatusOption.label opt /\
  In (StatusOption.value opt) (map StatusOption.value STATUS_OPTIONS).
Proof.
  intros H. split; [|now apply in_map].
  simpl in H. destruct H as [<- | [<- | [<- | [<- | []]]]]; reflexivity.
Qed.

Lemma Array_includes_map (f : string -> string) (l : list string) (x : string) :
  (forall y, In y l -> f y = f x -> y = x) ->
  Array_includes (map f l) (f x) = Array_includes l x.
Proof.
  intros Hinj.
  destruct (Array_includes l x) eqn:E.
  - apply Array_includes_In. apply Array_includes_In in E. now apply in_map.
  - destruct (Array_includes (map f l) (f x)) eqn:E'; [|reflexivity].
    apply Array_includes_In, in_map_iff in E' as [y [Ey Hy]].
    apply Hinj in Ey; [|exact Hy]. subst y.
    apply Array_includes_In in Hy. congruence.
Qed.

Lemma toggleOption_map (f : string -> string) (l : list string) (x : string) :
  (forall y, In y l -> f y = f x -> y = x) ->
  toggleOption (map f l) (f x) = map f (toggleOption l x).
Proof.
  intros Hinj. unfold toggleOption. rewrite Array_includes_map by exact Hinj.
  destruct (Array_includes l x).
  - clear -Hinj. induction l as [|y l IH]; simpl; [reflexivity|].
    assert (E : String.eqb (f y) (f x) = String.eqb y x).
    { destruct (String.eqb_spec y x) as [->|N]; [apply String.eqb_refl|].
      apply String.eqb_neq. intros E. apply N. apply Hinj; simpl; auto. }
    rewrite E, IH by (intros; apply Hinj; simpl; auto).
    now destruct (String.eqb y x).
  - now rewrite map_app.
Qed.

(** X6.  In the status section of the filters the stored selection holds
    status codes and the buttons show labels.  When the selection holds
    status codes only, pressing the button of an option toggles the code
    of that option in the stored selection, the button is highlighted
    exactly when its code is selected, and the new selection holds status
    codes only. *)
Theorem status_click_toggles_code (selectedStatus : list string)
  (opt : StatusOption.t) :
  Forall (fun s => In s (map StatusOption.value STATUS_OPTIONS)) selectedStatus ->
  In opt STATUS_OPTIONS ->
  status_click selectedStatus (StatusOption.label opt)
    = toggleOption selectedStatus (StatusOption.value opt) /\
  Array_includes (status_selected selectedStatus) (StatusOption.label opt)
    = Array_includes selectedStatus (StatusOption.value opt) /\
  Forall (fun s => In s (map StatusOption.value STATUS_OPTIONS))
         (status_click selectedStatus (StatusOption.label opt)).
Proof.
  intros Hcodes Hopt. rewrite Forall_forall in Hcodes.
  destruct (status_option_label opt Hopt) as [El Hc].
  assert (Hinj : forall y, In y selectedStatus ->
            label_of_value y = label_of_value (StatusOption.value opt) ->
            y = StatusOption.value opt).
  { intros y Hy E. rewrite <- (status_code_roundtrip y) by auto.
    rewrite E. now apply status_code_roundtrip. }
  assert (Hall : forall s, In s (toggleOption selectedStatus (StatusOption.value opt)) ->
            In s (map StatusOption.value STATUS_OPTIONS)).
  { intros s Hs. apply toggleOption_In in Hs as [[_ Hs] | [-> _]]; auto. }
  assert (E : status_click selectedStatus (StatusOption.label opt)
              = toggleOption selectedStatus (StatusOption.value opt)).
  { unfold status_click, status_selected. rewrite <- El.
    rewrite toggleOption_map by exact Hinj. rewrite map_map.
    rewrite <- (map_id (toggleOption selectedStatus (StatusOption.value opt))) at 2.
    apply map_ext_in. intros s Hs. apply status_code_roundtrip. now apply Hall. }
  split; [exact E | split].
  - unfold status_selected. rewrite <- El. now apply Array_includes_map.
  - rewrite E. apply Forall_forall. exact Hall.
Qed.

Lemma status_click_toggles_code_witness :
  status_click ["playing"; "completed"] "Completed" = ["playing"] /\
  status_click ["playing"] "Dropped" = ["playing"; "dropped"].
Proof.
  split.
  - refine (proj1 (status_click_toggles_code ["playing"; "completed"]
                     (StatusOption.mk "completed" "Completed"
                                      "bg-purple-100 text-purple-800") _ _)).
    + repeat constructor; simpl; tauto.
    + simpl. tauto.
  - refine (proj1 (status_click_toggles_code ["playing"]
                     (StatusOption.mk "dropped" "Dropped"
                                      "bg-gray-100 text-gray-800") _ _)).
    + repeat constructor; simpl; tauto.
    + simpl. tauto.
Defined.

(* ================================================================= *)
(** ** Query engine: how the view follows the controls *)

Lemma append_assoc (a b c : string) : (a ++ b) ++ c = a ++ (b ++ c).
Proof. induction a as [|x a IH]; simpl; [reflexivity | now rewrite IH]. Qed.

Lemma substring_of_trans (a b c : string) :
  substring_of a b -> substring_of b c -> substring_of a c.
Proof.
  intros [pre [post ->]] [pre' [post' ->]].
  exists (pre' ++ pre), (post ++ post').
  now rewrite !append_assoc.
Qed.

Lemma matchesPlatforms_widen (sp sp' : list string) (g : Game) :
  incl sp sp' -> (sp = [] -> sp' = []) ->
  matchesPlatforms sp g = true -> matchesPlatforms sp' g = true.
Proof.
  rewrite !matchesPlatforms_spec. unfold spec_platforms.
  intros Hi He [H | [p [Hp Hin]]]; [left; auto | right; exists p; auto].
Qed.

Lemma matchesGenres_widen (sg sg' : list string) (g : Game) :
  incl sg sg' -> (sg = [] -> sg' = []) ->
  matchesGenres sg g = true -> matchesGenres sg' g = true.
Proof.
  rewrite !matchesGenres_spec. unfold spec_genres.
  intros Hi He [H | [p [Hp Hin]]]; [left; auto | right; exists p; auto].
Qed.

Lemma matchesStatus_widen (ss ss' : list string) (g : Game) :
  incl ss ss' -> (ss = [] -> ss' = []) ->
  matchesStatus ss g = true -> matchesStatus ss' g = true.
Proof.
  rewrite !matchesStatus_spec. unfold spec_status.
  intros Hi He [H | Hin]; [left; auto | right; auto].
Qed.

Section ViewControls.

Variable toLowerCase : string -> string.
Variable localeCompare : string -> string -> Z.
Variable Array_sort : (Game -> Game -> Z) -> list Game -> list Game.

Hypothesis toLowerCase_empty : toLowerCase "" = "".
Hypothesis Array_sort_perm :
  forall cmp l, Permutation (Array_sort cmp l) l.

Lemma view_In (games : list Game) (searchTerm : string)
  (sp sg ss : list string) (sortOption : string) (g : Game) :
  In g (filteredGames toLowerCase localeCompare Array_sort games searchTerm
                      sp sg ss sortOption) <->
  In g games /\ passes toLowerCase searchTerm sp sg ss g = true.
Proof.
  rewrite <- filter_In.
  pose proof (filteredGames_perm toLowerCase localeCompare Array_sort
                Array_sort_perm games searchTerm sp sg ss sortOption) as P.
  split; intros H.
  - eapply Permutation_in; [exact P | exact H].
  - eapply Permutation_in; [symmetry; exact P | exact H].
Qed.

(** X7.  After [clearFilters] the filtering stage lets every game
    through, so the view is the whole catalog, rearranged by the sort
    mode, which [clearFilters] keeps. *)
Theorem clearFilters_shows_every_game (games : list Game) (f : Filters.t) :
  let c := clearFilters f in
  filtered toLowerCase games (Filters.searchTerm c) (Filters.selectedPlatforms c)
           (Filters.selectedGenres c) (Filters.selectedStatus c) = games /\
  Permutation
    (filteredGames toLowerCase localeCompare Array_sort games
       (Filters.searchTerm c) (Filters.selectedPlatforms c)
       (Filters.selectedGenres c) (Filters.selectedStatus c)
       (Filters.sortOption c))
    games /\
  Filters.sortOption c = Filters.sortOption f.
Proof.
  cbv zeta. simpl.
  assert (E : filtered toLowerCase games "" [] [] [] = games).
  { apply filter_all. intros g _. unfold passes, matchesSearch.
    rewrite toLowerCase_empty, includes_empty. reflexivity. }
  split; [exact E | split; [|reflexivity]].
  rewrite <- E at 2. now apply filteredGames_perm.
Qed.

(** X8.  Within a filter category the selected values are alternatives:
    when each of the three selections grows, and none goes from empty to
    not empty, every game of the view is still in the view, whatever the
    two sort modes. *)
Theorem view_grows_with_selection (games : list Game) (searchTerm : string)
  (sp sg ss sp' sg' ss' : list string) (sortOption sortOption' : string)
  (g : Game) :
  incl sp sp' -> (sp = [] -> sp' = []) ->
  incl sg sg' -> (sg = [] -> sg' = []) ->
  incl ss ss' -> (ss = [] -> ss' = []) ->
  In g (filteredGames toLowerCase localeCompare Array_sort games searchTerm
                      sp sg ss sortOption) ->
  In g (filteredGames toLowerCase localeCompare Array_sort games searchTerm
                      sp' sg' ss' sortOption').
Proof.
  intros Hp Hp0 Hg Hg0 Hs Hs0. rewrite !view_In. unfold passes.
  rewrite !andb_true_iff. intros [Hin [[[H1 H2] H3] H4]].
  split; [exact Hin|]. repeat split; auto.
  - now apply (matchesPlatforms_widen sp sp').
  - now apply (matchesGenres_widen sg sg').
  - now apply (matchesStatus_widen ss ss').
Qed.

(** X9.  A search text whose lower-case form occurs inside the lower-case
    form of a longer one finds every game the longer one finds: typing
    on never adds a game to the view. *)
Theorem view_shrinks_with_search (games : list Game) (shorter longer : string)
  (sp sg ss : list string) (sortOption : string) (g : Game) :
  substring_of (toLowerCase shorter) (toLowerCase longer) ->
  In g (filteredGames toLowerCase localeCompare Array_sort games longer
                      sp sg ss sortOption) ->
  In g (filteredGames toLowerCase localeCompare Array_sort games shorter
                      sp sg ss sortOption).
Proof.
  intros Hsub. rewrite !view_In. unfold passes. rewrite !andb_true_iff.
  intros [Hin [[[H1 H2] H3] H4]]. split; [exact Hin|]. repeat split; auto.
  unfold matchesSearch in *. rewrite orb_true_iff in *.
  destruct H1 as [H1 | H1].
  - left. apply includes_spec in H1. apply includes_spec.
    exact (substring_of_trans _ _ _ Hsub H1).
  - right. apply existsb_exists in H1 as [x [Hx H1]]. apply existsb_exists.
    exists x. split; [exact Hx|].
    apply includes_spec in H1. apply includes_spec.
    exact (substring_of_trans _ _ _ Hsub H1).
Qed.

End ViewControls.

Lemma view_grows_with_selection_witness :
  In celeste
     (filteredGames Ref.toLowerCase Ref.localeCompare Ref.Array_sort
                    [hades; celeste; tunic] "" [] [] ["playing"; "completed"]
                    "date-newest").
Proof.
  apply (view_grows_with_selection Ref.toLowerCase Ref.localeCompare
           Ref.Array_sort (@Ref_sort_perm Game)
           [hades; celeste; tunic] "" [] [] ["playing"] [] []
           ["playing"; "completed"] "title-az" "date-newest" celeste).
  - intros x H; exact H.
  - reflexivity.
  - intros x H; exact H.
  - reflexivity.
  - intros x [<- | []]. simpl. auto.
  - discriminate.
  - simpl. auto.
Defined.

Lemma view_shrinks_with_search_witness :
  In celeste
     (filteredGames Ref.toLowerCase Ref.localeCompare Ref.Array_sort
                    [hades; celeste; tunic] "el" [] [] [] "title-az").
Proof.
  apply (view_shrinks_with_search Ref.toLowerCase Ref.localeCompare
           Ref.Array_sort (@Ref_sort_perm Game)
           [hades; celeste; tunic] "el" "Celes" [] [] [] "title-az" celeste).
  - exists "c", "es". reflexivity.
  - simpl. auto.
Defined.

Lemma clearFilters_shows_every_game_witness :
  Permutation
    (filteredGames Ref.toLowerCase Ref.localeCompare Ref.Array_sort
       [hades; celeste; tunic] "" [] [] [] "title-az")
    [hades; celeste; tunic].
Proof.
  exact (proj1 (proj2 (clearFilters_shows_every_game
                  Ref.toLowerCase Ref.localeCompare Ref.Array_sort
                  Ref_toLowerCase_empty (@Ref_sort_perm Game)
                  [hades; celeste; tunic]
                  (Filters.mk "zelda" ["PC"] ["RPG"] ["dropped"] "title-az")))).
Defined.

(* ================================================================= *)
(** ** The Random Game button *)

(** X10.  The Random Game button is disabled exactly when a press would
    pick nothing: disabled, [pickRandomGame] leaves the state as it is;
    enabled, it selects an eligible game of the view, for every draw. *)
Theorem randomDisabled_iff_nothing_to_pick (random : Double.t)
  (view : list Game) (st : AppState) :
  Double.unit_interval random -> Z.of_nat (List.length view) < 2 ^ 32 ->
  (randomDisabled view = true <-> filter eligible view = []) /\
  (randomDisabled view = true -> pickRandomGame random view st = st) /\
  (randomDisabled view = false ->
     exists g, pickRandomGame random view st = setSelectedGame (Some g) st /\
               eligible g = true /\ In g view).
Proof.
  intros Hd Hlen. unfold randomDisabled.
  split; [apply length_zero_nil|].
  destruct (pickRandomGame_cases random view st Hd Hlen)
    as [[Hnil Hst] | [Hne [g [Hg Hst]]]].
  - split; [intros _; exact Hst|].
    intros E. rewrite Hnil in E. discriminate.
  - split.
    + intros E. apply length_zero_nil in E. contradiction.
    + intros _. exists g. split; [exact Hst|].
      apply nth_error_In in Hg. apply filter_In in Hg. tauto.
Qed.

Lemma randomDisabled_iff_nothing_to_pick_witness :
  let draw := Double.mk 6004799503160661 53 in
  (randomDisabled [hades] = true /\
   pickRandomGame draw [hades] (initial_state [hades]) = initial_state [hades]) /\
  (randomDisabled [hades; celeste; tunic] = false /\
   exists g, pickRandomGame draw [hades; celeste; tunic]
                            (initial_state [hades; celeste; tunic])
             = setSelectedGame (Some g) (initial_state [hades; celeste; tunic]) /\
             eligible g = true /\ In g [hades; celeste; tunic]).
Proof.
  cbv zeta.
  assert (U : Double.unit_interval (Double.mk 6004799503160661 53))
    by (unfold Double.unit_interval; simpl; lia).
  assert (L1 : Z.of_nat (List.length [hades]) < 2 ^ 32) by (simpl; lia).
  assert (L3 : Z.of_nat (List.length [hades; celeste; tunic]) < 2 ^ 32)
    by (simpl; lia).
  split; (split; [reflexivity|]).
  - apply (proj1 (proj2 (randomDisabled_iff_nothing_to_pick
                           (Double.mk 6004799503160661 53) [hades]
                           (initial_state [hades]) U L1))).
    reflexivity.
  - apply (proj2 (proj2 (randomDisabled_iff_nothing_to_pick
                           (Double.mk 6004799503160661 53)
                           [hades; celeste; tunic]
                           (initial_state [hades; celeste; tunic]) U L3))).
    reflexivity.
Defined.

(* ================================================================= *)
(** ** Metadata client: results, details and the add dialog *)

Section ClientResults.

Variable encodeURIComponent : string -> string.
Variable fetch : string -> Rawg.Response + string * string.
Variable JSON_parse : string -> Rawg.Payload + string * string.

(** X11.  [searchGames] returns a list in two cases only: the query or
    the key is blank, and the list is empty whatever the network would
    answer; or the request was answered with a success status and a body
    that decodes to a response without the invalid-key text, and the list
    is its [results], empty when the field is absent. *)
Theorem searchGames_returns (query apiKey : string) (r : list Rawg.RAWGGame) :
  Rawg.searchGames encodeURIComponent fetch JSON_parse query apiKey = Js.Normal r <->
  ((Js.blank query = true \/ Js.blank apiKey = true) /\ r = []) \/
  (Js.blank query = false /\ Js.blank apiKey = false /\
   exists response proxyData data,
     fetch (Rawg.proxyUrl encodeURIComponent query apiKey) = inl response /\
     Rawg.ok response = true /\
     Rawg.json response = inl proxyData /\
     JSON_parse (Rawg.contents proxyData) = inl data /\
     Rawg.reports_invalid_key data = false /\
     r = match Rawg.results data with
         | Some found => found
         | None => []
         end).
Proof.
  unfold Rawg.searchGames. rewrite !truthy_trim, !negb_involutive.
  destruct (Js.blank query) eqn:Hq; simpl.
  { split; [intros [= <-]; left; auto | intros [[_ ->] | [H _]]; [reflexivity | discriminate]]. }
  destruct (Js.blank apiKey) eqn:Hk; simpl.
  { split; [intros [= <-]; left; auto |
            intros [[_ ->] | [_ [H _]]]; [reflexivity | discriminate]]. }
  split.
  - intros H. right. repeat (split; [reflexivity|]).
    destruct (fetch (Rawg.proxyUrl encodeURIComponent query apiKey))
      as [response|[n m]]; simpl in H; [|discriminate].
    destruct (Rawg.ok response) eqn:Eok; simpl in H; [|discriminate].
    destruct (Rawg.json response) as [proxyData|[n m]] eqn:Ej; simpl in H;
      [|discriminate].
    destruct (JSON_parse (Rawg.contents proxyData)) as [data|[n m]] eqn:Ep;
      simpl in H; [|discriminate].
    destruct (Rawg.reports_invalid_key data) eqn:Er; simpl in H; [discriminate|].
    injection H as <-. exists response, proxyData, data. auto 10.
  - intros [[[H | H] _] | (_ & _ & response & proxyData & data & Ef & Eok & Ej & Ep & Er & ->)];
      try discriminate.
    rewrite Ef. simpl. rewrite Eok. simpl. rewrite Ej. simpl. rewrite Ep. simpl.
    now rewrite Er.
Qed.

End ClientResults.

Section DetailsFacts.

Variable encodeURIComponent : string -> string.
Variable fetch : string -> Rawg.Response + string * string.
Variable JSON_parse : string -> DetailPayload + string * string.

(** X12.  [getGameDetails] answers [null] exactly when the key is blank,
    and then without a request.  With a key it returns the decoded
    record exactly when the request was answered with a success status
    and a body that decodes without the invalid-key text; an answer
    outside the success range makes it throw its own error. *)
Theorem getGameDetails_outcomes (gameId : Z) (apiKey : string) :
  (getGameDetails encodeURIComponent fetch JSON_parse gameId apiKey = Js.Normal None
     <-> Js.blank apiKey = true) /\
  (forall g,
     getGameDetails encodeURIComponent fetch JSON_parse gameId apiKey
       = Js.Normal (Some g) <->
     Js.blank apiKey = false /\
     exists response proxyData data,
       fetch (detailsUrl encodeURIComponent gameId apiKey) = inl response /\
       Rawg.ok response = true /\
       Rawg.json response = inl proxyData /\
       JSON_parse (Rawg.contents proxyData) = inl data /\
       details_report_invalid_key data = false /\
       g = game_of data) /\
  (forall response,
     Js.blank apiKey = false ->
     fetch (detailsUrl encodeURIComponent gameId apiKey) = inl response ->
     Rawg.ok response = false ->
     getGameDetails encodeURIComponent fetch JSON_parse gameId apiKey
       = Js.Throw DetailsError).
Proof.
  unfold getGameDetails. rewrite truthy_trim, negb_involutive.
  destruct (Js.blank apiKey) eqn:Hk.
  { split; [split; reflexivity | split].
    - intros g. split; [discriminate | intros [H _]; discriminate].
    - discriminate. }
  split; [|split].
  - split; [|discriminate].
    destruct (fetch (detailsUrl encodeURIComponent gameId apiKey))
      as [response|[n m]]; simpl; [|discriminate].
    destruct (Rawg.ok response); simpl; [|discriminate].
    destruct (Rawg.json response) as [proxyData|[n m]]; simpl; [|discriminate].
    destruct (JSON_parse (Rawg.contents proxyData)) as [data|[n m]]; simpl;
      [|discriminate].
    destruct (details_report_invalid_key data); simpl; discriminate.
  - intros g. split.
    + intros H. split; [reflexivity|].
      destruct (fetch (detailsUrl encodeURIComponent gameId apiKey))
        as [response|[n m]]; simpl in H; [|discriminate].
      destruct (Rawg.ok response) eqn:Eok; simpl in H; [|discriminate].
      destruct (Rawg.json response) as [proxyData|[n m]] eqn:Ej; simpl in H;
        [|discriminate].
      destruct (JSON_parse (Rawg.contents proxyData)) as [data|[n m]] eqn:Ep;
        simpl in H; [|discriminate].
      destruct (details_report_invalid_key data) eqn:Er; simpl in H;
        [discriminate|].
      injection H as <-. exists response, proxyData, data. auto 10.
    + intros (_ & response & proxyData & data & Ef & Eok & Ej & Ep & Er & ->).
      rewrite Ef. simpl. rewrite Eok. simpl. rewrite Ej. simpl. rewrite Ep. simpl.
      now rewrite Er.
  - intros response _ Ef Eok. rewrite Ef. simpl. now rewrite Eok.
Qed.

End DetailsFacts.

Example getGameDetails_runs :
  getGameDetails Ref.encodeURIComponent (Ref.fetch 200 "details") decode_details
                 3498 "k3y" = Js.Normal (Some (game_of sample_details)) /\
  getGameDetails Ref.encodeURIComponent (Ref.fetch 200 "details") decode_details
                 3498 " " = Js.Normal None /\
  getGameDetails Ref.encodeURIComponent (Ref.fetch 404 "details") decode_details
                 3498 "k3y" = Js.Throw DetailsError /\
  detailsUrl Ref.encodeURIComponent 3498 "k3y"
    = "https://api.allorigins.win/get?url=https://api.rawg.io/api/games/3498?key=k3y".
Proof. repeat split. Qed.

Lemma searchError_for_nonempty (e : Js.Exception) : Rawg.searchError_for e <> "".
Proof.
  unfold Rawg.searchError_for. destruct (Rawg.mentions_api_key e); discriminate.
Qed.

Section AddDialogFacts.

Variable encodeURIComponent : string -> string.
Variable fetch : string -> Rawg.Response + string * string.
Variable JSON_parse_results : string -> Rawg.Payload + string * string.
Variable JSON_parse_details : string -> DetailPayload + string * string.

(** X13.  [handleSearch] ends without an error message exactly when the
    key and the query passed its checks (a key and a query that are not
    blank, a query of two code units at least) and the search returned a
    list that is not empty, which is then the list shown.  When a check
    fails the results shown and the busy flag are left as they were and
    a message is set; when the checks pass the busy flag ends cleared.
    The form, the selection and the query are never touched. *)
Theorem handleSearch_outcome (apiKey : string) (st : AddGameModal.t) :
  let st' := AddGameModal.handleSearch encodeURIComponent fetch JSON_parse_results
                                       apiKey st in
  let query := AddGameModal.searchQuery st in
  (AddGameModal.searchError st' = "" <->
     Js.blank apiKey = false /\ Js.blank query = false /\
     (2 <= String.length query)%nat /\
     exists results,
       Rawg.searchGames encodeURIComponent fetch JSON_parse_results query apiKey
         = Js.Normal results /\
       results <> [] /\ AddGameModal.searchResults st' = results) /\
  (Js.blank apiKey = true \/ Js.blank query = true \/ (String.length query < 2)%nat ->
     AddGameModal.searchResults st' = AddGameModal.searchResults st /\
     AddGameModal.isSearching st' = AddGameModal.isSearching st /\
     AddGameModal.searchError st' <> "") /\
  (Js.blank apiKey = false -> Js.blank query = false ->
   (2 <= String.length query)%nat ->
     AddGameModal.isSearching st' = false) /\
  AddGameModal.formData st' = AddGameModal.formData st /\
  AddGameModal.selectedGameData st' = AddGameModal.selectedGameData st /\
  AddGameModal.searchQuery st' = AddGameModal.searchQuery st.
Proof.
  cbv zeta. unfold AddGameModal.handleSearch. rewrite !truthy_trim, !negb_involutive.
  destruct (Js.blank apiKey) eqn:Hk; simpl.
  { split; [split; [discriminate | intros [H _]; discriminate]|].
    split; [intros _; repeat split; discriminate|].
    split; [discriminate | repeat split]. }
  destruct (Js.blank (AddGameModal.searchQuery st)) eqn:Hq; simpl.
  { split; [split; [discriminate | intros (_ & H & _); discriminate]|].
    split; [intros _; repeat split; discriminate|].
    split; [discriminate | repeat split]. }
  destruct (String.length (AddGameModal.searchQuery st) <? 2)%nat eqn:Hl; simpl.
  { apply Nat.ltb_lt in Hl.
    split; [split; [discriminate | intros (_ & _ & H & _); lia]|].
    split; [intros _; repeat split; discriminate|].
    split; [intros; lia | repeat split]. }
  apply Nat.ltb_ge in Hl.
  destruct (Rawg.searchGames encodeURIComponent fetch JSON_parse_results
              (AddGameModal.searchQuery st) apiKey) as [results|e]; simpl.
  - split; [|split; [intros [H | [H | H]]; [discriminate | discriminate | lia]|]].
    + destruct results as [|r results]; simpl.
      * split; [discriminate|]. intros (_ & _ & _ & rs & E & Hne & _).
        injection E as <-. congruence.
      * split; [|reflexivity]. intros _. repeat (split; [auto|]).
        exists (r :: results). repeat split. discriminate.
    + repeat split.
  - split; [|split; [intros [H | [H | H]]; [discriminate | discriminate | lia]|]].
    + split; [intros H; now apply searchError_for_nonempty in H|].
      intros (_ & _ & _ & rs & E & _). discriminate.
    + repeat split.
Qed.

(** X14.  [selectGame] always settles, whatever the detail request does.
    The chosen result becomes the selection, the result list and the
    query are emptied, and the status, the rating and the notes of the
    form are kept.  The form is filled from the detailed record when the
    request returns one, from the chosen search result when the request
    throws, and is left as it was when the request answers [null]. *)
Theorem selectGame_settles (rawgGame : Rawg.RAWGGame) (apiKey : string)
  (st : AddGameModal.t) :
  let details :=
    getGameDetails encodeURIComponent fetch JSON_parse_details
                   (Rawg.id rawgGame) apiKey in
  exists st',
    AddGameModal.selectGame encodeURIComponent fetch JSON_parse_details
                            rawgGame apiKey st = Js.Normal st' /\
    AddGameModal.selectedGameData st' = Some rawgGame /\
    AddGameModal.searchResults st' = [] /\
    AddGameModal.searchQuery st' = "" /\
    AddGameModal.searchError st' = AddGameModal.searchError st /\
    Draft.status (AddGameModal.formData st')
      = Draft.status (AddGameModal.formData st) /\
    Draft.rating (AddGameModal.formData st')
      = Draft.rating (AddGameModal.formData st) /\
    Draft.notes (AddGameModal.formData st')
      = Draft.notes (AddGameModal.formData st) /\
    (forall d, details = Js.Normal (Some d) ->
       AddGameModal.formData st'
         = merge_form (AddGameModal.formData st) (convertRAWGToGame d)) /\
    (forall e, details = Js.Throw e ->
       AddGameModal.formData st'
         = merge_form (AddGameModal.formData st) (convertRAWGToGame rawgGame)) /\
    (details = Js.Normal None ->
       AddGameModal.formData st' = AddGameModal.formData st).
Proof.
  cbv zeta. unfold AddGameModal.selectGame.
  destruct (getGameDetails encodeURIComponent fetch JSON_parse_details
              (Rawg.id rawgGame) apiKey) as [[d|]|e]; simpl;
    eexists; (split; [reflexivity|]); simpl;
    repeat (split; [reflexivity|]);
    repeat split; intros; try discriminate; try reflexivity.
  congruence.
Qed.

(** X15.  Adding from a search result.  When the detail request returns a
    record, or throws so that the chosen result stands in, and the name
    of that source is not blank, selecting the result and submitting the
    form appends one game: its title, external id, platforms and score
    are those of the source, its id and date of addition come from the
    clock, its status is the one the form had, and the add form is
    closed. *)
Theorem add_from_search_result (rawgGame src : Rawg.RAWGGame) (apiKey : string)
  (st : AddGameModal.t) (now : Z) (today : string) (app : AppState) :
  getGameDetails encodeURIComponent fetch JSON_parse_details
                 (Rawg.id rawgGame) apiKey = Js.Normal (Some src) \/
  ((exists e, getGameDetails encodeURIComponent fetch JSON_parse_details
                (Rawg.id rawgGame) apiKey = Js.Throw e) /\ src = rawgGame) ->
  Js.blank (Rawg.name src) = false ->
  exists st' g,
    AddGameModal.selectGame encodeURIComponent fetch JSON_parse_details
                            rawgGame apiKey st = Js.Normal st' /\
    games (handleSubmit now today (AddGameModal.formData st') app)
      = (games app ++ [g])%list /\
    showAddForm (handleSubmit now today (AddGameModal.formData st') app) = false /\
    title g = Rawg.name src /\
    rawgId g = Some (Rawg.id src) /\
    metacriticScore g = Rawg.metacritic src /\
    platforms g = match Rawg.platforms src with
                  | Some ps => map Rawg.platform_name ps
                  | None => []
                  end /\
    id g = Js.toString now /\ dateAdded g = today /\
    status g = Draft.status (AddGameModal.formData st).
Proof.
  intros Hsrc Hname. unfold AddGameModal.selectGame.
  assert (F : forall st1 : AddGameModal.t,
            AddGameModal.formData st1
              = merge_form (AddGameModal.formData st) (convertRAWGToGame src) ->
            exists g,
              games (handleSubmit now today (AddGameModal.formData st1) app)
                = (games app ++ [g])%list /\
              showAddForm (handleSubmit now today (AddGameModal.formData st1) app)
                = false /\
              title g = Rawg.name src /\ rawgId g = Some (Rawg.id src) /\
              metacriticScore g = Rawg.metacritic src /\
              platforms g = match Rawg.platforms src with
                            | Some ps => map Rawg.platform_name ps
                            | None => []
                            end /\
              id g = Js.toString now /\ dateAdded g = today /\
              status g = Draft.status (AddGameModal.formData st)).
  { intros st1 E. rewrite E. rewrite handleSubmit_titled by exact Hname.
    eexists. split; [apply addGame_games|]. repeat split. }
  destruct Hsrc as [E | [[e E] ->]]; rewrite E; simpl.
  - eexists. destruct (F (AddGameModal.mk "" [] (AddGameModal.isSearching st)
                 (AddGameModal.searchError st) (Some rawgGame)
                 (merge_form (AddGameModal.formData st) (convertRAWGToGame src))))
      as [g Hg]; [reflexivity|].
    exists g. split; [reflexivity | exact Hg].
  - eexists. destruct (F (AddGameModal.mk "" [] (AddGameModal.isSearching st)
                 (AddGameModal.searchError st) (Some rawgGame)
                 (merge_form (AddGameModal.formData st) (convertRAWGToGame rawgGame))))
      as [g Hg]; [reflexivity|].
    exists g. split; [reflexivity | exact Hg].
Qed.

End AddDialogFacts.

Lemma add_from_search_result_witness :
  exists st' g,
    AddGameModal.selectGame Ref.encodeURIComponent (Ref.fetch 200 "details")
                            decode_details sample_summary "k3y"
                            AddGameModal.initial = Js.Normal st' /\
    games (handleSubmit 1717200000000 "2024-06-01" (AddGameModal.formData st')
                        (initial_state [celeste]))
      = ([celeste] ++ [g])%list /\
    title g = "Hades" /\ platforms g = ["PC"; "Nintendo Switch"].
Proof.
  assert (H1 : getGameDetails Ref.encodeURIComponent (Ref.fetch 200 "details")
                 decode_details (Rawg.id sample_summary) "k3y"
               = Js.Normal (Some (game_of sample_details)) \/
               ((exists e, getGameDetails Ref.encodeURIComponent
                             (Ref.fetch 200 "details") decode_details
                             (Rawg.id sample_summary) "k3y" = Js.Throw e) /\
                game_of sample_details = sample_summary))
    by (left; reflexivity).
  assert (H2 : Js.blank (Rawg.name (game_of sample_details)) = false)
    by reflexivity.
  destruct (add_from_search_result Ref.encodeURIComponent (Ref.fetch 200 "details")
              decode_details sample_summary (game_of sample_details) "k3y"
              AddGameModal.initial 1717200000000 "2024-06-01"
              (initial_state [celeste]) H1 H2)
    as (st' & g & Hs & Hg & _ & Ht & _ & _ & Hp & _).
  exists st', g. repeat split; assumption.
Defined.

Lemma handleSearch_runs :
  let search body status st :=
    AddGameModal.handleSearch Ref.encodeURIComponent (Ref.fetch status body)
                              Ref.decode "k3y" st in
  let typed q := AddGameModal.mk q [] false "" None AddGameModal.empty_form in
  AddGameModal.searchError (search "found" 200 (typed "hades")) = "" /\
  List.length (AddGameModal.searchResults (search "found" 200 (typed "hades"))) = 1%nat /\
  AddGameModal.searchError (search "empty" 200 (typed "hades"))
    = "No games found. Try different search terms." /\
  AddGameModal.searchError (search "found" 200 (typed "h"))
    = "Please enter at least 2 characters" /\
  AddGameModal.searchError (search "rejected" 200 (typed "hades"))
    = "Invalid API key. Please check your RAWG.io API key in settings." /\
  AddGameModal.searchError (search "found" 500 (typed "hades"))
    = "Search failed. Please try again.".
Proof. repeat split. Qed.

(* ================================================================= *)
(** ** The API key *)

Lemma trimEnd_cons (c : ascii) (s : string) :
  Js.trimEnd (String c s) =
  match Js.trimEnd s with
  | EmptyString => if Js.isWhiteSpace c then EmptyString else String c EmptyString
  | t => String c t
  end.
Proof. reflexivity. Qed.

Lemma trimEnd_idem (s : string) : Js.trimEnd (Js.trimEnd s) = Js.trimEnd s.
Proof.
  induction s as [|c s IH]; [reflexivity|].
  rewrite (trimEnd_cons c s).
  destruct (Js.trimEnd s) as [|d t] eqn:E.
  - destruct (Js.isWhiteSpace c) eqn:W; [reflexivity|].
    rewrite trimEnd_cons. simpl. now rewrite W.
  - rewrite trimEnd_cons, IH. reflexivity.
Qed.

Lemma trimStart_head (s : string) :
  Js.trimStart s = "" \/
  exists c t, Js.trimStart s = String c t /\ Js.isWhiteSpace c = false.
Proof.
  induction s as [|c s IH]; simpl; [now left|].
  destruct (Js.isWhiteSpace c) eqn:W; [exact IH|].
  right. now exists c, s.
Qed.

Lemma trimEnd_head (c : ascii) (s : string) :
  Js.trimEnd (String c s) = "" \/ exists t, Js.trimEnd (String c s) = String c t.
Proof.
  simpl. destruct (Js.trimEnd s) as [|d t].
  - destruct (Js.isWhiteSpace c); [now left | right; now exists ""].
  - right. now exists (String d t).
Qed.

(** Trimming a trimmed string changes nothing. *)
Lemma trim_idem (s : string) : Js.trim (Js.trim s) = Js.trim s.
Proof.
  unfold Js.trim at 2 3.
  destruct (trimStart_head s) as [E | [c [t [E W]]]]; rewrite E.
  - reflexivity.
  - destruct (trimEnd_head c t) as [E' | [t' E']].
    + now rewrite E'.
    + unfold Js.trim. rewrite E'. simpl Js.trimStart. rewrite W.
      rewrite <- E'. apply trimEnd_idem.
Qed.

(** X16.  Saving an API key.  The key in use is the input without the
    white space around it.  A key that is not blank is stored, and a load
    of the page starts with it.  A blank input empties the key in use but
    leaves storage alone: the key stored before is the key after the next
    load of the page. *)
Theorem apiKey_save_and_reload (inputKey : string) (st : ApiKeyDialog.t) :
  let st' := ApiKeyDialog.handleSave inputKey st in
  ApiKeyDialog.apiKey st' = Js.trim inputKey /\
  Js.trim (ApiKeyDialog.apiKey st') = ApiKeyDialog.apiKey st' /\
  (Js.blank inputKey = false ->
     ApiKeyDialog.stored st' = Some (Js.trim inputKey) /\
     ApiKeyDialog.apiKey (ApiKeyDialog.mount (ApiKeyDialog.stored st'))
       = Js.trim inputKey) /\
  (Js.blank inputKey = true ->
     ApiKeyDialog.apiKey st' = "" /\
     ApiKeyDialog.stored st' = ApiKeyDialog.stored st /\
     ApiKeyDialog.mount (ApiKeyDialog.stored st')
       = ApiKeyDialog.mount (ApiKeyDialog.stored st)).
Proof.
  cbv zeta. unfold ApiKeyDialog.handleSave, ApiKeyDialog.setApiKey. simpl.
  split; [reflexivity | split; [apply trim_idem | split]].
  - intros Hb. rewrite truthy_trim, Hb. simpl. split; [reflexivity|].
    unfold or_else. rewrite truthy_trim, Hb. reflexivity.
  - intros Hb. rewrite truthy_trim, Hb. simpl.
    apply trim_blank in Hb. rewrite Hb. auto.
Qed.

Example apiKey_runs :
  let st := ApiKeyDialog.mount (Some "old-key") in
  ApiKeyDialog.handleSave "  new-key " st = ApiKeyDialog.mk "new-key" (Some "new-key") /\
  ApiKeyDialog.handleSave "   " st = ApiKeyDialog.mk "" (Some "old-key") /\
  ApiKeyDialog.mount (ApiKeyDialog.stored (ApiKeyDialog.handleSave "   " st))
    = ApiKeyDialog.mk "old-key" (Some "old-key") /\
  ApiKeyDialog.mount None = ApiKeyDialog.mk "" None.
Proof. repeat split. Qed.

(* ================================================================= *)
(** ** The detail view: saving edits *)





(** With the selection unchanged since the view was mounted: a status
    set from the view is put back by Save Changes, while the completion
    date the change wrote stays. *)
Example handleSave_puts_status_back :
  let st := setSelectedGame (Some celeste) (initial_state [hades; celeste]) in
  let changed := handleStatusChange "2024-03-05" celeste completed st in
  let saved_st :=
    GameDetailModal.handleSave
      (GameDetailModal.mkKeys false false false false false false false false)
      celeste (GameDetailModal.mkEdits None None (Some "co-op run") None) changed in
  map (fun g => (status g, dateCompleted g, notes g)) (games changed)
    = [(completed, Some "2024-01-20", None); (completed, Some "2024-03-05", None)] /\
  map (fun g => (status g, dateCompleted g, notes g)) (games saved_st)
    = [(completed, Some "2024-01-20", None);
       (playing, Some "2024-03-05", Some "co-op run")].
Proof. repeat split. Qed.

(* ================================================================= *)
(** ** The add form: a submission that goes through *)

(** X18.  Submitting the add form with a title that is not blank appends
    exactly one game and moves none: the games already there keep their
    positions, the new game is last, it carries the title as typed (white
    space around it included) and the other fields of the draft, its id
    is the decimal text of the clock reading and its date of addition the
    current date; the collection is written to storage, the form is
    closed and the selection is kept. *)
Theorem handleSubmit_appends_one (now : Z) (today : string)
  (formData : Draft.t) (st : AppState) :
  Js.blank (Draft.title formData) = false ->
  let st' := handleSubmit now today formData st in
  List.length (games st') = S (List.length (games st)) /\
  (forall i g, nth_error (games st) i = Some g -> nth_error (games st') i = Some g) /\
  (exists g, nth_error (games st') (List.length (games st)) = Some g /\
     title g = Draft.title formData /\ id g = Js.toString now /\
     dateAdded g = today /\ status g = Draft.status formData /\
     platforms g = Draft.platforms formData /\ genres g = Draft.genres formData /\
     rating g = Draft.rating formData /\ notes g = Draft.notes formData) /\
  saved st' = games st' /\ showAddForm st' = false /\
  selectedGame st' = selectedGame st.
Proof.
  intros Hb. cbv zeta. rewrite handleSubmit_titled by exact Hb.
  rewrite addGame_games. split; [|split; [|split]].
  - rewrite length_app. simpl. lia.
  - intros i g H. rewrite nth_error_app1; [exact H|].
    apply nth_error_Some. congruence.
  - eexists. split.
    + rewrite nth_error_app2 by lia. rewrite Nat.sub_diag. reflexivity.
    + repeat split.
  - repeat split.
Qed.

Lemma handleSubmit_appends_one_witness :
  let st' := handleSubmit 1717200000000 "2024-06-01" (sample_draft " Hades ")
                          (initial_state [celeste]) in
  List.length (games st') = 2%nat /\ map title (games st') = ["Celeste"; " Hades "].
Proof.
  split; [|reflexivity].
  assert (Hb : Js.blank (Draft.title (sample_draft " Hades ")) = false)
    by reflexivity.
  exact (proj1 (handleSubmit_appends_one 1717200000000 "2024-06-01"
                  (sample_draft " Hades ") (initial_state [celeste]) Hb)).
Defined.
